(** * pycsv: a CSV column filter

    Shallow embedding of [scripts/pycsv.py] and of the part of CPython's
    [csv] module (version 3.11, default [excel] dialect) that the script
    runs: the record parser of [csv.reader], the record formatter of
    [csv.writer], and the [DictReader] / [DictWriter] classes of
    [Lib/csv.py].

    A Python [str] is a [string]; [None] in a cell is [None : option string].
    Exceptions are values of [exn]; code that writes to the standard streams
    runs in the state-and-exception monad [io].

    The input is the list of the lines that iterating the text stream
    yields, each with its line ending; a stream that fails while it is read
    (an I/O or a decoding error) and a write that fails are outside the
    model.  The process state records what the script itself writes: the
    traceback that the interpreter prints for an uncaught exception is not
    part of [sys_stderr]. *)

From Stdlib Require Import Ascii.
From stdpp Require Import gmap strings list fin_maps.
From Equations Require Import Equations.

(** ** Exceptions and the process state *)

Inductive exn :=
  | StopIteration
  | TypeError (msg : string)
  | KeyError (key : string)
  | IndexError
  | ValueError (wrong_fields : list string)
  | csv_Error (msg : string)
  | FileNotFoundError
  | OSError
  | SystemExit (code : Z).

(** What a run leaves behind: the text the script has written to the two
    standard streams and the module-level variable [columns] ([None] while
    unbound). *)
Record process := mkProcess {
  sys_stdout : string;
  sys_stderr : string;
  columns : option (list string) }.

Definition startup : process :=
  {| sys_stdout := ""; sys_stderr := ""; columns := None |}.

(** State-and-exception monad: an exception keeps the state reached so far,
    so output written before a failure stays written. *)
Definition io (A : Type) : Type := process → process * (exn + A).

#[global] Instance io_ret : MRet io := λ A x p, (p, inr x).
#[global] Instance io_bind : MBind io := λ A B f m p,
  match m p with
  | (p', inr x) => f x p'
  | (p', inl e) => (p', inl e)
  end.

Definition raise {A} (e : exn) : io A := λ p, (p, inl e).

Definition lift {A} (r : exn + A) : io A :=
  match r with inl e => raise e | inr x => mret x end.

(** The two output streams of [sys]. *)
Inductive textio := stdout | stderr.

Definition write (f : textio) (s : string) : io unit := λ p,
  match f with
  | stdout =>
      ({| sys_stdout := sys_stdout p +:+ s; sys_stderr := sys_stderr p;
          columns := columns p |}, inr tt)
  | stderr =>
      ({| sys_stdout := sys_stdout p; sys_stderr := sys_stderr p +:+ s;
          columns := columns p |}, inr tt)
  end.

Definition set_columns (v : list string) : io unit := λ p,
  ({| sys_stdout := sys_stdout p; sys_stderr := sys_stderr p;
      columns := Some v |}, inr tt).

Definition LF : ascii := "010"%char.
Definition CR : ascii := "013"%char.
Definition DQUOTE : ascii := "034"%char.
Definition COMMA : ascii := ","%char.

Definition chr (c : ascii) : string := String c "".

(** ** The [csv] module *)

Module csv.

(** A cell handed to the writer or stored in a row: a [str] or [None]. *)
Abbreviation cell := (option string).

(** *** [csv.reader]: the record parser ([Modules/_csv.c])

    Dialect [excel]: the comma as delimiter, the double quote as quotechar,
    doublequote, no escapechar, no skipinitialspace, not strict,
    QUOTE_MINIMAL.  The three escape states, which need an escapechar, are
    left out. *)

Inductive ParserState :=
  | START_RECORD | START_FIELD | IN_FIELD
  | IN_QUOTED_FIELD | QUOTE_IN_QUOTED_FIELD | EAT_CRNL.

#[global] Instance ParserState_eq_dec : EqDecision ParserState.
Proof. solve_decision. Defined.

(** The parse fields of [ReaderObj]; [parse_reset] re-initialises them at
    the start of every record. *)
Record parser := mkParser {
  fields : list string;
  state : ParserState;
  field : string;
  field_len : N }.

(** The fields of [ReaderObj] that live across records: the line iterator
    (the lines the text stream still has to yield, each with its line
    ending) and the line counter. *)
Record ReaderObj := mkReader {
  input_iter : list string;
  line_num : N }.

(** A character fed to the state machine: a character of the line, or the
    end-of-line marker fed after the last one. *)
Inductive input := Ch (c : ascii) | EOL.

#[global] Instance input_eq_dec : EqDecision input.
Proof. solve_decision. Defined.

Definition field_limit : N := 131072.

Definition parse_reset : parser :=
  {| fields := []; state := START_RECORD; field := ""; field_len := 0 |}.

Definition set_state (s : ParserState) (self : parser) : parser :=
  {| fields := fields self; state := s; field := field self;
     field_len := field_len self |}.

Definition parse_save_field (self : parser) : parser :=
  {| fields := fields self ++ [field self]; state := state self;
     field := ""; field_len := 0 |}.

Definition parse_add_char (self : parser) (c : ascii) : exn + parser :=
  if (field_limit <=? field_len self)%N
  then inl (csv_Error "field larger than field limit (131072)")
  else inr {| fields := fields self; state := state self;
              field := field self +:+ chr c;
              field_len := field_len self + 1 |}.

Definition is_newline (c : input) : bool :=
  match c with
  | Ch c => bool_decide (c = LF) || bool_decide (c = CR)
  | EOL => false
  end.

Definition is_char (c : input) (d : ascii) : bool :=
  match c with Ch c => bool_decide (c = d) | EOL => false end.

(** State reached after a field or record ended at [c]. *)
Definition after_end (c : input) : ParserState :=
  match c with EOL => START_RECORD | Ch _ => EAT_CRNL end.

(** Adds the character [c] (never [EOL] where this is called) and moves to
    state [s]. *)
Definition add_then (s : ParserState) (self : parser) (c : input)
  : exn + parser :=
  match c with
  | Ch ch =>
      match parse_add_char self ch with
      | inl e => inl e
      | inr self' => inr (set_state s self')
      end
  | EOL => inr (set_state s self)
  end.

Definition start_field (self : parser) (c : input) : exn + parser :=
  if is_newline c || bool_decide (c = EOL)
  then inr (set_state (after_end c) (parse_save_field self))
  else if is_char c DQUOTE then inr (set_state IN_QUOTED_FIELD self)
  else if is_char c COMMA then inr (parse_save_field self)
  else add_then IN_FIELD self c.

Definition parse_process_char (self : parser) (c : input) : exn + parser :=
  match state self with
  | START_RECORD =>
      if bool_decide (c = EOL) then inr self
      else if is_newline c then inr (set_state EAT_CRNL self)
      else start_field (set_state START_FIELD self) c
  | START_FIELD => start_field self c
  | IN_FIELD =>
      if is_newline c || bool_decide (c = EOL)
      then inr (set_state (after_end c) (parse_save_field self))
      else if is_char c COMMA
      then inr (set_state START_FIELD (parse_save_field self))
      else add_then IN_FIELD self c
  | IN_QUOTED_FIELD =>
      if bool_decide (c = EOL) then inr self
      else if is_char c DQUOTE
      then inr (set_state QUOTE_IN_QUOTED_FIELD self)
      else add_then IN_QUOTED_FIELD self c
  | QUOTE_IN_QUOTED_FIELD =>
      if is_char c DQUOTE then add_then IN_QUOTED_FIELD self c
      else if is_char c COMMA
      then inr (set_state START_FIELD (parse_save_field self))
      else if is_newline c || bool_decide (c = EOL)
      then inr (set_state (after_end c) (parse_save_field self))
      else add_then IN_FIELD self c
  | EAT_CRNL =>
      if is_newline c then inr self
      else if bool_decide (c = EOL) then inr (set_state START_RECORD self)
      else inl (csv_Error "new-line character seen in unquoted field - do you need to open the file in universal-newline mode?")
  end.

(** The characters of one line, then the end-of-line marker. *)
Fixpoint process_line (self : parser) (line : string) : exn + parser :=
  match line with
  | "" => parse_process_char self EOL
  | String c rest =>
      match parse_process_char self (Ch c) with
      | inl e => inl e
      | inr self' => process_line self' rest
      end
  end.

(** The [do ... while (state != START_RECORD)] loop of [Reader_iternext]:
    lines are consumed until a record is complete. *)
Fixpoint iternext_loop (self : parser) (lines : list string) (n : N)
  : exn + (list string * ReaderObj) :=
  match lines with
  | [] =>
      if bool_decide (field_len self ≠ 0%N) ||
         bool_decide (state self = IN_QUOTED_FIELD)
      then inr (fields (parse_save_field self),
                {| input_iter := []; line_num := n |})
      else inl StopIteration
  | line :: rest =>
      match process_line self line with
      | inl e => inl e
      | inr self' =>
          if bool_decide (state self' ≠ START_RECORD)
          then iternext_loop self' rest (n + 1)
          else inr (fields self',
                    {| input_iter := rest; line_num := n + 1 |})
      end
  end.

Definition Reader_iternext (self : ReaderObj)
  : exn + (list string * ReaderObj) :=
  iternext_loop parse_reset (input_iter self) (line_num self).

(** [csv.reader(f)] *)
Definition reader (f : list string) : ReaderObj :=
  {| input_iter := f; line_num := 0 |}.

(** A record comes back only after at least one line was consumed. *)
Lemma iternext_loop_shrinks self lines n row r :
  iternext_loop self lines n = inr (row, r) →
  length (input_iter r) ≤ length lines ∧
  (length (input_iter r) = length lines → lines = []).
Proof.
  revert self n. induction lines as [|line rest IH]; intros self n; simpl.
  - destruct (_ || _); [|done]. intros [= <- <-]. done.
  - destruct (process_line self line) as [e|self']; [done|].
    case_bool_decide.
    + intros Hrec%IH. simpl. split; [lia|]. intros. lia.
    + intros [= <- <-]. simpl. split; [lia|]. intros. lia.
Qed.

Lemma Reader_iternext_shrinks self row r :
  Reader_iternext self = inr (row, r) →
  length (input_iter r) < length (input_iter self).
Proof.
  unfold Reader_iternext. intros H.
  destruct (iternext_loop_shrinks _ _ _ _ _ H) as [Hle Heq].
  destruct (decide (length (input_iter r) = length (input_iter self)))
    as [Hlen|]; [|lia].
  rewrite (Heq Hlen) in H. done.
Qed.

(** *** [csv.writer]: the record formatter ([Modules/_csv.c])

    The script builds its writer with [lineterminator] set to a single
    line feed; the rest of the dialect is [excel]. *)

Definition lineterminator : string := chr LF.

(** The characters that force a field into quotes: the delimiter, the
    quotechar and the characters of the line terminator. *)
Definition special (c : ascii) : bool :=
  bool_decide (c = COMMA) || bool_decide (c = DQUOTE) ||
  bool_decide (c = LF).

Fixpoint any_special (s : string) : bool :=
  match s with
  | "" => false
  | String c rest => special c || any_special rest
  end.

(** The copy loop of [join_append_data]: a quotechar is written twice. *)
Fixpoint copy_data (s : string) : string :=
  match s with
  | "" => ""
  | String c rest =>
      if bool_decide (c = DQUOTE)
      then String DQUOTE (String c (copy_data rest))
      else String c (copy_data rest)
  end.

(** [join_append]: appends one field to the record buffer [rec], which
    already holds [num_fields] fields.  [None] has no data. *)
Definition join_append (rec : string) (num_fields : nat)
    (field : cell) (quoted : bool) : string :=
  let data := default "" field in
  let quoted := quoted || any_special data in
  (if bool_decide (0 < num_fields) then rec +:+ chr COMMA else rec)
  +:+ (if quoted then chr DQUOTE +:+ copy_data data +:+ chr DQUOTE
       else copy_data data).

Fixpoint join_fields (rec : string) (num_fields : nat) (row : list cell)
  : string * nat :=
  match row with
  | [] => (rec, num_fields)
  | field :: rest =>
      join_fields (join_append rec num_fields field false)
                  (S num_fields) rest
  end.

(** [csv_writerow]: the text one [writerow] call sends to the file.  A
    record of one empty field is written as a pair of quotes. *)
Definition writerow (row : list cell) : string :=
  let '(rec, num_fields) := join_fields "" 0 row in
  let rec :=
    if bool_decide (0 < num_fields) && bool_decide (rec = "")
    then join_append rec (num_fields - 1) None true
    else rec in
  rec +:+ lineterminator.

(** *** [exn + _] as a monad *)

#[global] Instance exn_ret : MRet (sum exn) := λ A x, inr x.
#[global] Instance exn_bind : MBind (sum exn) := λ A B f m,
  match m with inl e => inl e | inr x => f x end.

(** [inspect] keeps the equation of a match for termination proofs. *)
Definition inspect {A} (a : A) : {b | a = b} := exist _ a eq_refl.

(** *** [csv.DictReader] ([Lib/csv.py]), with the default [restkey] and
    [restval], both [None] *)

(** The [dict] that [__next__] returns.  Its keys are the field names, bound
    to a [str] or to [restval]; the one other key is [restkey], bound to
    the list of surplus values of a record longer than the header. *)
Record rowdict := mkRow {
  named : gmap string cell;
  rest : option (list string) }.

(** [dict(pairs)]: a later pair replaces an earlier one with the same key. *)
Definition dict {V} (pairs : list (string * V)) : gmap string V :=
  foldl (λ d kv, <[kv.1 := kv.2]> d) ∅ pairs.

(** [row = next(reader); while row == []: row = next(reader)], entered
    with the first [row] already read. *)
Equations? skip_blank (row : list string) (r : ReaderObj)
  : exn + (list string * ReaderObj) by wf (length (input_iter r)) lt :=
  skip_blank [] r with inspect (Reader_iternext r) => {
    | exist _ (inl e) _ := inl e;
    | exist _ (inr (row', r')) H := skip_blank row' r' };
  skip_blank row r := inr (row, r).
Proof. by eapply Reader_iternext_shrinks. Qed.

Module DictReader.

Record t := mk {
  _fieldnames : option (list string);
  reader : ReaderObj;
  line_num : N }.

(** [DictReader(f)] *)
Definition new (f : list string) : t :=
  {| _fieldnames := None; reader := csv.reader f; line_num := 0 |}.

(** The [fieldnames] property: the first access reads the header record;
    only [StopIteration] is caught. *)
Definition fieldnames (self : t) : exn + (option (list string) * t) :=
  self ←
    match _fieldnames self with
    | Some _ => inr self
    | None =>
        match Reader_iternext (reader self) with
        | inr (row, r) =>
            inr {| _fieldnames := Some row; reader := r;
                   line_num := line_num self |}
        | inl StopIteration => inr self
        | inl e => inl e
        end
    end;
  let self := {| _fieldnames := _fieldnames self; reader := reader self;
                 line_num := csv.line_num (reader self) |} in
  mret (_fieldnames self, self).

(** The rows [zip] pairs with the field names, then the two length cases. *)
Definition make_dict (fieldnames row : list string) : rowdict :=
  let d := dict (zip fieldnames (Some <$> row)) in
  let lf := length fieldnames in
  let lr := length row in
  if bool_decide (lf < lr)
  then {| named := d; rest := Some (drop lf row) |}
  else if bool_decide (lr < lf)
  then {| named := foldl (λ d key, <[key := None]> d) d (drop lr fieldnames);
          rest := None |}
  else {| named := d; rest := None |}.

Definition __next__ (self : t) : exn + (rowdict * t) :=
  self ← (if bool_decide (line_num self = 0%N)
          then '(_, self) ← fieldnames self; mret self
          else mret self);
  '(row, r) ← Reader_iternext (reader self);
  let self := {| _fieldnames := _fieldnames self; reader := r;
                 line_num := csv.line_num r |} in
  '(row, r) ← skip_blank row (reader self);
  let self := {| _fieldnames := _fieldnames self; reader := r;
                 line_num := line_num self |} in
  '(names, self) ← fieldnames self;
  match names with
  | None => inl (TypeError "'NoneType' object is not iterable")
  | Some names => mret (make_dict names row, self)
  end.

End DictReader.

(** *** [csv.DictWriter] ([Lib/csv.py]), with the default [restval] (the
    empty string) and [extrasaction] (raise) *)

Module DictWriter.

Record t := mk {
  f : textio;
  fieldnames : list string }.

Definition _dict_to_list (self : t) (rowdict : gmap string cell)
  : exn + list cell :=
  let wrong_fields : gset string :=
    dom rowdict ∖ list_to_set (fieldnames self) in
  if bool_decide (wrong_fields ≠ ∅)
  then inl (ValueError (elements wrong_fields))
  else mret ((λ key, default (Some "") (rowdict !! key)) <$> fieldnames self).

Definition writerow (self : t) (rowdict : gmap string cell) : io unit :=
  row ← lift (_dict_to_list self rowdict);
  write (f self) (csv.writerow row).

Definition writeheader (self : t) : io unit :=
  let header := dict (zip (fieldnames self) (Some <$> fieldnames self)) in
  writerow self header.

End DictWriter.

End csv.

(** ** Iterating a [DictReader] *)

Import csv.

Lemma skip_blank_eq row r :
  skip_blank row r =
  match row with
  | [] =>
      match Reader_iternext r with
      | inl e => inl e
      | inr (row', r') => skip_blank row' r'
      end
  | _ => inr (row, r)
  end.
Proof.
  destruct row; simp skip_blank; [|done].
  destruct (inspect (Reader_iternext r)) as [[e|[row' r']] Hx];
    simpl; by rewrite Hx.
Qed.

Lemma skip_blank_shrinks row r row' r' :
  skip_blank row r = inr (row', r') →
  length (input_iter r') ≤ length (input_iter r).
Proof.
  remember (length (input_iter r)) as k eqn:Hk.
  revert row r Hk. induction (lt_wf k) as [k _ IH]. intros row r ->.
  rewrite skip_blank_eq. destruct row as [|c row].
  - destruct (Reader_iternext r) as [e|[row1 r1]] eqn:E; [done|].
    apply Reader_iternext_shrinks in E. intros Hs.
    eapply IH in Hs; [|exact E|done]. lia.
  - intros [= <- <-]. done.
Qed.

Lemma fieldnames_shrinks self names self' :
  DictReader.fieldnames self = inr (names, self') →
  length (input_iter (DictReader.reader self')) ≤
  length (input_iter (DictReader.reader self)).
Proof.
  unfold DictReader.fieldnames, mbind, mret, exn_bind, exn_ret.
  destruct (DictReader._fieldnames self) as [h|]; simpl.
  - intros [= <- <-]. done.
  - destruct (Reader_iternext (DictReader.reader self))
      as [e|[row r]] eqn:E; simpl.
    + destruct e; simpl; try done. intros [= <- <-]. done.
    + intros [= <- <-]. simpl. apply Reader_iternext_shrinks in E. lia.
Qed.

Lemma next_shrinks self row self' :
  DictReader.__next__ self = inr (row, self') →
  length (input_iter (DictReader.reader self')) <
  length (input_iter (DictReader.reader self)).
Proof.
  unfold DictReader.__next__, mbind, mret, exn_bind, exn_ret. intros H.
  destruct (if bool_decide (DictReader.line_num self = 0%N)
            then _ else _) as [e|self1] eqn:E1; [done|].
  assert (length (input_iter (DictReader.reader self1)) ≤
          length (input_iter (DictReader.reader self))) as H1.
  { case_bool_decide; [|by injection E1 as <-].
    destruct (DictReader.fieldnames self) as [e|[n s]] eqn:E; [done|].
    injection E1 as <-. by eapply fieldnames_shrinks. }
  destruct (Reader_iternext (DictReader.reader self1))
    as [e|[row1 r1]] eqn:E2; simpl in H; [done|].
  apply Reader_iternext_shrinks in E2.
  destruct (skip_blank row1 _) as [e|[row2 r2]] eqn:E3; simpl in H; [done|].
  apply skip_blank_shrinks in E3.
  destruct (DictReader.fieldnames (DictReader.mk _ _ _))
    as [e|[names self3]] eqn:E4; simpl in H; [done|].
  apply fieldnames_shrinks in E4. simpl in *.
  destruct names; [|done]. injection H as _ <-. lia.
Qed.

(** One step of the iterator protocol: [StopIteration] ends the loop, any
    other exception leaves it. *)
Inductive step := Stop | Fail (e : exn) | Yield (row : rowdict) (reader : DictReader.t).

Definition next (reader : DictReader.t) : step :=
  match DictReader.__next__ reader with
  | inl StopIteration => Stop
  | inl e => Fail e
  | inr (row, reader') => Yield row reader'
  end.

Lemma next_Yield_shrinks reader row reader' :
  next reader = Yield row reader' →
  length (input_iter (DictReader.reader reader')) <
  length (input_iter (DictReader.reader reader)).
Proof.
  unfold next. destruct (DictReader.__next__ reader) as [e|[r s]] eqn:E.
  - by destruct e.
  - intros [= <- <-]. by eapply next_shrinks.
Qed.

(** [for row in reader: body(row)] *)
Equations? for_in (reader : DictReader.t) (body : rowdict → io unit)
    (p : process) : process * (exn + unit)
    by wf (length (input_iter (DictReader.reader reader))) lt :=
  for_in reader body p with inspect (next reader) => {
    | exist _ Stop _ := (p, inr tt);
    | exist _ (Fail e) _ := (p, inl e);
    | exist _ (Yield row reader') H with body row p => {
        | (p', inl e) := (p', inl e);
        | (p', inr _) := for_in reader' body p' } }.
Proof. by eapply next_Yield_shrinks. Qed.

Lemma for_in_eq reader body p :
  for_in reader body p =
  match next reader with
  | Stop => (p, inr tt)
  | Fail e => (p, inl e)
  | Yield row reader' =>
      match body row p with
      | (p', inl e) => (p', inl e)
      | (p', inr _) => for_in reader' body p'
      end
  end.
Proof.
  simp for_in.
  destruct (inspect (next reader)) as [[|e|row reader'] Hx]; simpl.
  - by rewrite Hx.
  - by rewrite Hx.
  - destruct (body row p) as [p' [e|[]]] eqn:Hb; simpl; by rewrite Hx, Hb.
Qed.

(** ** [scripts/pycsv.py] *)

Definition remove_list : list string :=
  ["E1"; "E2"; "E3"; "E4"; "E5"; "E6"; "C1"; "C2"; "C3"; "C4"; "C5"; "C6"].

(** [{col: row[col] for col in fieldnames}], built onto [acc]. *)
Fixpoint dict_comprehension (row : rowdict) (fieldnames : list string)
    (acc : gmap string cell) : exn + gmap string cell :=
  match fieldnames with
  | [] => inr acc
  | col :: fieldnames =>
      match named row !! col with
      | Some v => dict_comprehension row fieldnames (<[col := v]> acc)
      | None => inl (KeyError col)
      end
  end.

(** The body of the [for] loop. *)
Definition loop_body (writer : DictWriter.t) (fieldnames : list string)
    (row : rowdict) : io unit :=
  filtered_row ← lift (dict_comprehension row fieldnames ∅);
  DictWriter.writerow writer filtered_row.

(** The parameter [writer] is rebound on the third line of the body before
    any use. *)
Definition remove_columns (reader : DictReader.t) (writer : textio)
    (columns_to_remove : list string) : io unit :=
  '(names, reader) ← lift (DictReader.fieldnames reader);
  fieldnames ←
    match names with
    | Some names => mret (filter (λ col, col ∉ columns_to_remove) names)
    | None => raise (TypeError "'NoneType' object is not iterable")
    end;
  let writer :=
    {| DictWriter.f := stdout; DictWriter.fieldnames := fieldnames |} in
  DictWriter.writeheader writer;;
  for_in reader (loop_body writer fieldnames).

(** What the script finds when it starts: its arguments, what [open] does
    with a path (the lines of the file, or the exception raised), and the
    lines waiting on standard input. *)
Record world := mkWorld {
  sys_argv : list string;
  open : string → exn + list string;
  sys_stdin : list string }.

(** [print(s, file=f)] *)
Definition print (s : string) (f : textio) : io unit :=
  write f (s +:+ chr LF).

(** The [__main__] block.  Closing [infile] at the end changes neither
    stream and is left out. *)
Definition main (w : world) : io unit :=
  (if bool_decide (length (sys_argv w) < 2)
   then print "Usage: script.py [file]" stderr;; raise (SystemExit 1)
   else mret tt);;
  maybe_file ← lift (from_option inr (inl IndexError) (sys_argv w !! 1));
  infile ←
    match open w maybe_file with
    | inr infile => mret infile
    | inl FileNotFoundError =>
        set_columns (drop 1 (sys_argv w));; mret (sys_stdin w)
    | inl e => raise e
    end;
  let reader := DictReader.new infile in
  remove_columns reader stdout remove_list.

(** Running the script from a fresh process, and the exit status the
    interpreter reports for the way it ended. *)
Definition run (w : world) : process * (exn + unit) := main w startup.

Definition exit_status (r : exn + unit) : Z :=
  match r with
  | inr _ => 0
  | inl (SystemExit code) => code
  | inl _ => 1
  end.

(** ** Specification-level views of a run *)

(** What ended an iteration: plain exhaustion, or an exception. *)
Definition end_of (e : exn) : option exn :=
  match e with StopIteration => None | _ => Some e end.

(** Every record [csv.reader] yields from its lines, in order, and the
    exception that cut the iteration short, if one did. *)
Equations? records (r : ReaderObj) : list (list string) * option exn
    by wf (length (input_iter r)) lt :=
  records r with inspect (Reader_iternext r) => {
    | exist _ (inl e) _ := ([], end_of e);
    | exist _ (inr (row, r')) H := (row :: (records r').1, (records r').2) }.
Proof. all: by eapply Reader_iternext_shrinks. Qed.

(** The data rows of [DictReader]: the records with at least one field. *)
Definition nonblank (rows : list (list string)) : list (list string) :=
  filter (λ row, row ≠ []) rows.

(** The cells of row [d] under the names [fieldnames], in that order. *)
Definition cells (fieldnames : list string) (d : rowdict) : list cell :=
  (λ col, default None (named d !! col)) <$> fieldnames.

(** The names that survive the removal of [columns_to_remove]. *)
Definition kept (columns_to_remove header : list string) : list string :=
  filter (λ col, col ∉ columns_to_remove) header.

(** The line written for the data record [row] under the header [header]. *)
Definition row_line (columns_to_remove header row : list string) : string :=
  csv.writerow
    (cells (kept columns_to_remove header) (DictReader.make_dict header row)).

Fixpoint concat_lines (ls : list string) : string :=
  match ls with
  | [] => ""
  | l :: ls => l +:+ concat_lines ls
  end.

(** The text [remove_columns] writes, and how it ends, for a reader that
    yields the records [recs]. *)
Definition transcript (columns_to_remove : list string)
    (recs : list (list string) * option exn) : string * (exn + unit) :=
  match recs with
  | ([], None) => ("", inl (TypeError "'NoneType' object is not iterable"))
  | ([], Some e) => ("", inl e)
  | (header :: rows, err) =>
      (csv.writerow (Some <$> kept columns_to_remove header) +:+
       concat_lines (row_line columns_to_remove header <$> nonblank rows),
       from_option inl (inr tt) err)
  end.

(** The lines the script reads in world [w]: those of the file its first
    argument names, or those of standard input when no such file exists;
    [None] when the script stops before it has an input. *)
Definition input_stream (w : world) : option (list string) :=
  match sys_argv w with
  | _ :: maybe_file :: _ =>
      match open w maybe_file with
      | inr infile => Some infile
      | inl FileNotFoundError => Some (sys_stdin w)
      | inl _ => None
      end
  | _ => None
  end.

(** ** Notions used in the statements *)

(** [p] after [s] more characters went to standard output. *)
Definition printed (p : process) (s : string) : process :=
  {| sys_stdout := sys_stdout p +:+ s; sys_stderr := sys_stderr p;
     columns := columns p |}.

Definition usage : process :=
  {| sys_stdout := ""; sys_stderr := "Usage: script.py [file]" +:+ chr LF;
     columns := None |}.

(** How a loop over the remaining records ends. *)
Definition ending (err : option exn) : exn := default StopIteration err.

(** Running a loop body over the rows [ds], then ending as [err] says. *)
Fixpoint run_rows (body : rowdict → io unit) (ds : list rowdict)
    (err : option exn) (p : process) : process * (exn + unit) :=
  match ds with
  | [] => (p, from_option inl (inr tt) err)
  | d :: ds =>
      match body d p with
      | (p', inl e) => (p', inl e)
      | (p', inr _) => run_rows body ds err p'
      end
  end.

(** [e] is a [csv.Error]. *)
Definition is_csv_Error (e : exn) : Prop := ∃ msg, e = csv_Error msg.

(** A record supplies a value for every surviving column: it has a field
    at every header position whose name is not removed. *)
Definition supplies (rm h r : list string) : Prop :=
  ∀ i col, h !! i = Some col → col ∉ rm → i < length r.

(** Well-formed records: a non-empty header of distinct names, and data
    records with exactly one field per name. *)
Definition well_formed (h : list string) (rows : list (list string)) : Prop :=
  h ≠ [] ∧ NoDup h ∧ Forall (λ r : list string, length r = length h) rows.

(** Line terminators made uniform: a carriage return followed by a line
    feed, and a carriage return alone, become a line feed. *)
Fixpoint normalize_newlines (s : string) : string :=
  match s with
  | "" => ""
  | String c rest =>
      if bool_decide (c = CR)
      then match rest with
           | String c' _ =>
               if bool_decide (c' = LF) then normalize_newlines rest
               else String LF (normalize_newlines rest)
           | "" => String LF ""
           end
      else String c (normalize_newlines rest)
  end.

(** A string of at most [field_limit] characters. *)
Definition within_limit (s : string) : Prop :=
  (N.of_nat (String.length s) ≤ field_limit)%N.

(** The parse state keeps count of the field under construction, never
    lets it outgrow the limit, and has saved only fields within it. *)
Definition parser_ok (self : parser) : Prop :=
  field_len self = N.of_nat (String.length (field self)) ∧
  (field_len self ≤ field_limit)%N ∧
  Forall within_limit (fields self).

(** The characters of [s] fed to the state machine, without the end-of-line
    marker that [process_line] feeds last. *)
Fixpoint feed (self : parser) (s : string) : exn + parser :=
  match s with
  | "" => inr self
  | String c rest =>
      match parse_process_char self (Ch c) with
      | inl e => inl e
      | inr self' => feed self' rest
      end
  end.

(** A string without line feed and without carriage return. *)
Fixpoint no_newline (s : string) : bool :=
  match s with
  | "" => true
  | String c rest =>
      negb (bool_decide (c = LF)) && negb (bool_decide (c = CR)) &&
      no_newline rest
  end.

(** A cell the writer can write on one line and the reader can take back:
    its text has no line break and fits the field limit. *)
Definition writable (c : cell) : Prop :=
  no_newline (default "" c) = true ∧ within_limit (default "" c).

(** The text of one field in a record: in quotes when it has to be. *)
Definition quoted_text (data : string) : string :=
  chr DQUOTE +:+ copy_data data +:+ chr DQUOTE.

Definition field_text (data : string) : string :=
  if any_special data then quoted_text data else copy_data data.

(** The text of the fields after the first, each behind its comma. *)
Definition tail_text (ds : list string) : string :=
  concat_lines ((λ d, chr COMMA +:+ field_text d) <$> ds).

(** The state a separator leaves the parser in. *)
Definition after_sep (sep : ascii) : ParserState :=
  if bool_decide (sep = COMMA) then START_FIELD else EAT_CRNL.

(** The lines a text stream that keeps line endings yields for the text
    [s], as the script's input file does (it is opened with the empty
    string as [newline]): a line ends after a line feed, after a carriage
    return and line feed, or after a carriage return alone; [cur] is the
    part of the current line already passed. *)
Fixpoint readlines_from (cur s : string) : list string :=
  match s with
  | "" => if bool_decide (cur = "") then [] else [cur]
  | String c rest =>
      if bool_decide (c = LF)
      then (cur +:+ chr LF) :: readlines_from "" rest
      else if bool_decide (c = CR)
      then match rest with
           | String c' rest' =>
               if bool_decide (c' = LF)
               then (cur +:+ chr CR +:+ chr LF) :: readlines_from "" rest'
               else (cur +:+ chr CR) :: readlines_from "" rest
           | "" => [cur +:+ chr CR]
           end
      else readlines_from (cur +:+ chr c) rest
  end.

Definition readlines (s : string) : list string := readlines_from "" s.

(** The records [remove_columns] hands to the writer for a header [h] and
    data records [rows]: the surviving names, then the cells of each
    non-blank record. *)
Definition written_records (rm h : list string) (rows : list (list string))
  : list (list cell) :=
  (Some <$> kept rm h) ::
  ((λ r, cells (kept rm h) (DictReader.make_dict h r)) <$> nonblank rows).

(** A string without carriage return. *)
Fixpoint no_CR (s : string) : bool :=
  match s with
  | "" => true
  | String c rest => negb (bool_decide (c = CR)) && no_CR rest
  end.

(** A string that holds a carriage return and that the writer leaves
    without quotes, for want of a comma, a quote or a line feed in it. *)
Definition bare_CR (s : string) : bool :=
  negb (any_special s) && negb (no_CR s).

(** A cell the reader takes back as it was written: its carriage returns,
    if it has any, go into quotes, and its text fits the field limit. *)
Definition readable (c : cell) : Prop :=
  bare_CR (default "" c) = false ∧ within_limit (default "" c).

(** Feeding [s] raises nothing, and after every line feed and every
    carriage return of [s] the parser is inside a quoted field. *)
Fixpoint quoted_breaks (self : parser) (s : string) : Prop :=
  match s with
  | "" => True
  | String c rest =>
      match parse_process_char self (Ch c) with
      | inl _ => False
      | inr self' =>
          (is_newline (Ch c) = true → state self' = IN_QUOTED_FIELD) ∧
          quoted_breaks self' rest
      end
  end.

(** The text [remove_columns] sends to standard output when it is called
    on a fresh [DictReader] over [lines] in a fresh process. *)
Definition output_of (columns_to_remove lines : list string) : string :=
  sys_stdout
    (remove_columns (DictReader.new lines) stdout columns_to_remove startup).1.

(** A text read as CSV: the records [csv.reader] yields from the lines of
    the text, and the exception that stopped it, if one did. *)
Definition read_back (text : string) : list (list string) * option exn :=
  records (csv.reader (readlines text)).

(** None of the cells is written with a carriage return outside quotes. *)
Definition no_bare_CR (rows : list (list cell)) : Prop :=
  Forall (Forall (λ c : cell, bare_CR (default "" c) = false)) rows.

(** The text of a record as the writer writes it, without the line
    terminator: the fields, quoted where they have to be, with commas
    between them; a record of one empty field is a pair of quotes. *)
Definition record_text (rec : list string) : string :=
  match rec with
  | [] => ""
  | d :: ds =>
      if bool_decide (d = "" ∧ ds = []) then quoted_text ""
      else field_text d +:+ tail_text ds
  end.

(** The three line terminators: line feed, carriage return and line feed,
    carriage return. *)
Definition terminator (t : string) : Prop :=
  t = chr LF ∨ t = chr CR +:+ chr LF ∨ t = chr CR.

(** The records [recs], each written as the writer writes it and ended by
    its own terminator from [terms]. *)
Fixpoint written_with (recs : list (list string)) (terms : list string)
  : string :=
  match recs, terms with
  | rec :: recs, t :: terms =>
      record_text rec +:+ t +:+ written_with recs terms
  | _, _ => ""
  end.

Fixpoint ends_with_CR (s : string) : bool :=
  match s with
  | "" => false
  | String c "" => bool_decide (c = CR)
  | String _ rest => ends_with_CR rest
  end.


(** C2 as the spec words it: the output has one header and as many data
    records as the input has. *)
Definition one_output_record_per_input_record (rm lines : list string) : Prop :=
  ∀ h rows,
    records (csv.reader lines) = (h :: rows, None) →
    Forall (supplies rm h) rows →
    ∃ header data,
      read_back (output_of rm lines) = (header :: data, None) ∧
      length data = length rows.


(** C4 as the spec words it: a data record that lacks a surviving column
    makes the run end in a key error. *)
Definition short_row_raises_KeyError (rm lines : list string) : Prop :=
  ∀ h rows r i col,
    records (csv.reader lines) = (h :: rows, None) →
    r ∈ rows → h !! i = Some col → col ∉ rm → length r ≤ i →
    ∃ key,
      (remove_columns (DictReader.new lines) stdout rm startup).2 =
      inl (KeyError key).

(** C6 as the spec words it: with nothing to remove, the output text is the
    input text up to line terminators. *)
Definition noop_output_equals_input (lines : list string) : Prop :=
  ∀ h rows,
    records (csv.reader lines) = (h :: rows, None) →
    well_formed h rows →
    normalize_newlines
      (sys_stdout (remove_columns (DictReader.new lines) stdout [] startup).1) =
    normalize_newlines (concat_lines lines).

(** C9 as the spec words it: the run is the run on the input in which the
    surplus fields are absent, every data record being cut to the length of
    the header. *)
Definition surplus_fields_as_if_absent (rm lines : list string) : Prop :=
  ∀ h rows lines',
    records (csv.reader lines) = (h :: rows, None) →
    records (csv.reader lines') = (h :: (take (length h) <$> rows), None) →
    remove_columns (DictReader.new lines) stdout rm startup =
    remove_columns (DictReader.new lines') stdout rm startup.

(** ** Sample inputs *)

(** A line of text: [s] and a line feed. *)
Definition line (s : string) : string := s +:+ chr LF.

Definition sample : list string := [line "A,B,E1,C,C2"; line "1,2,3,4,5"].

Definition short_row_input : list string := [line "A,B"; line "1"; line "2,3"].

Definition long_row_input : list string := [line "A,E1"; line "1,2,3,4"].

(** A header line holding the one name [A] in quotes. *)
Definition quoted_header_input : list string :=
  [line (chr DQUOTE +:+ "A" +:+ chr DQUOTE)].

Definition on_file (argv infile : list string) : world :=
  {| sys_argv := argv; open := λ _, inr infile; sys_stdin := [] |}.

Definition on_stdin (argv stdin : list string) : world :=
  {| sys_argv := argv; open := λ _, inl FileNotFoundError;
     sys_stdin := stdin |}.

(** An input whose third line has a carriage return inside an unquoted
    field, which the reader refuses. *)
Definition broken_input : list string :=
  [line "A,B"; line "1,2"; line ("a" +:+ chr CR +:+ "b"); line "3,4"].

(** The field [a], carriage return, [b] in quotes. *)
Definition quoted_CR : string :=
  chr DQUOTE +:+ "a" +:+ chr CR +:+ "b" +:+ chr DQUOTE.


(** A header [A] and one data record whose cell holds a carriage return:
    the three lines of the text. *)
Definition cr_cell_input : list string :=
  readlines (line "A" +:+ line quoted_CR).

(** A blank first line, then a record of two fields. *)
Definition blank_header_input : list string := [line ""; line "1,2"].

(** Two records, each ended by a carriage return and a line feed. *)
Definition crlf_input : list string :=
  ["A,B" +:+ chr CR +:+ chr LF; "1,2" +:+ chr CR +:+ chr LF].

(** ** The reader yields exactly [records] *)

Lemma records_eq r :
  records r =
  match Reader_iternext r with
  | inl e => ([], end_of e)
  | inr (row, r') => (row :: (records r').1, (records r').2)
  end.
Proof.
  simp records.
  destruct (inspect (Reader_iternext r)) as [[e|[row r']] Hx];
    simpl; by rewrite Hx.
Qed.

(** Induction on the number of lines a reader has left. *)
Lemma reader_ind (P : ReaderObj → Prop) :
  (∀ r, (∀ row r', Reader_iternext r = inr (row, r') → P r') → P r) →
  ∀ r, P r.
Proof.
  intros step r. remember (length (input_iter r)) as k eqn:Hk.
  revert r Hk. induction (lt_wf k) as [k _ IH]. intros r ->.
  apply step. intros row r' E. eapply IH; [|done].
  by eapply Reader_iternext_shrinks.
Qed.

Lemma end_of_not_stop e : end_of e ≠ Some StopIteration.
Proof. by destruct e. Qed.

Lemma records_err_not_stop r : (records r).2 ≠ Some StopIteration.
Proof.
  induction r as [r IH] using reader_ind. rewrite records_eq.
  destruct (Reader_iternext r) as [e|[row r']] eqn:E; simpl.
  - apply end_of_not_stop.
  - by eapply IH.
Qed.

Lemma skip_blank_spec row r :
  match skip_blank row r with
  | inl e => nonblank (row :: (records r).1) = [] ∧ e = ending (records r).2
  | inr (row1, r1) =>
      nonblank (row :: (records r).1) = row1 :: nonblank (records r1).1 ∧
      (records r1).2 = (records r).2
  end.
Proof.
  revert row. induction r as [r IH] using reader_ind. intros row.
  rewrite skip_blank_eq. destruct row as [|c row].
  - rewrite (records_eq r).
    destruct (Reader_iternext r) as [e|[row1 r1]]; simpl.
    + split; [done|]. by destruct e.
    + pose proof (IH _ _ eq_refl row1) as Hrec.
      unfold nonblank in *. rewrite filter_cons_False by naive_solver.
      by destruct (skip_blank row1 r1) as [e|[row2 r2]].
  - unfold nonblank. by rewrite filter_cons_True.
Qed.

Lemma fieldnames_known self h :
  DictReader._fieldnames self = Some h →
  DictReader.fieldnames self =
  inr (Some h, {| DictReader._fieldnames := Some h;
                  DictReader.reader := DictReader.reader self;
                  DictReader.line_num := line_num (DictReader.reader self) |}).
Proof.
  intros Hh. unfold DictReader.fieldnames, mbind, exn_bind.
  rewrite Hh. simpl. by rewrite Hh.
Qed.

Lemma next_spec self h :
  DictReader._fieldnames self = Some h →
  let recs := records (DictReader.reader self) in
  match next self with
  | Stop => nonblank recs.1 = [] ∧ recs.2 = None
  | Fail e => nonblank recs.1 = [] ∧ recs.2 = Some e
  | Yield d self' =>
      ∃ row, d = DictReader.make_dict h row ∧
        nonblank recs.1 = row :: nonblank (records (DictReader.reader self')).1 ∧
        (records (DictReader.reader self')).2 = recs.2 ∧
        DictReader._fieldnames self' = Some h
  end.
Proof.
  intros Hh recs. unfold next, DictReader.__next__.
  assert ((if bool_decide (DictReader.line_num self = 0%N)
           then '(_, self0) ← DictReader.fieldnames self; mret self0
           else mret self) = inr (DictReader.mk (Some h) (DictReader.reader self)
             (if bool_decide (DictReader.line_num self = 0%N)
              then line_num (DictReader.reader self)
              else DictReader.line_num self))) as ->.
  { case_bool_decide.
    - by rewrite (fieldnames_known _ _ Hh).
    - destruct self; simpl in *; by subst. }
  unfold mbind at 1, exn_bind at 1; simpl.
  pose proof (records_err_not_stop (DictReader.reader self)) as Hns.
  subst recs. rewrite (records_eq (DictReader.reader self)) in *.
  destruct (Reader_iternext (DictReader.reader self)) as [e|[row r]]; simpl.
  { destruct e; simpl in *; done. }
  pose proof (skip_blank_spec row r) as Hs.
  destruct (skip_blank row r) as [e|[row1 r1]]; simpl.
  { destruct Hs as [Hnb ->].
    destruct (records r).2 as [e|]; simpl in *; [by destruct e|done]. }
  destruct Hs as [Hnb Herr].
  by exists row1.
Qed.

Lemma for_in_spec self h body p :
  DictReader._fieldnames self = Some h →
  let recs := records (DictReader.reader self) in
  for_in self body p =
  run_rows body (DictReader.make_dict h <$> nonblank recs.1) recs.2 p.
Proof.
  remember (length (input_iter (DictReader.reader self))) as k eqn:Hk.
  revert self p Hk. induction (lt_wf k) as [k _ IH]. intros self p -> Hh.
  cbv zeta. rewrite for_in_eq. pose proof (next_spec self h Hh) as Hn.
  destruct (next self) as [|e|d self'] eqn:E; simpl in Hn.
  - destruct Hn as [-> ->]. done.
  - destruct Hn as [-> ->]. done.
  - destruct Hn as (row & -> & Hnb & Herr & Hh').
    rewrite Hnb, <- Herr. simpl.
    destruct (body (DictReader.make_dict h row) p) as [p' [e|[]]]; [done|].
    eapply IH; [|done|done]. by eapply next_Yield_shrinks.
Qed.

(** ** Dictionaries built by insertion *)

Section dict_lemmas.
Context {V : Type}.
Implicit Types (pairs : list (string * V)) (acc : gmap string V).

Let ins acc (kv : string * V) : gmap string V := <[kv.1 := kv.2]> acc.

Lemma foldl_insert_notin pairs acc k :
  k ∉ pairs.*1 → foldl ins acc pairs !! k = acc !! k.
Proof.
  revert acc. induction pairs as [|[j y] pairs IH]; intros acc; simpl; [done|].
  rewrite not_elem_of_cons. intros [Hne Hnotin].
  rewrite IH by done. unfold ins. simpl. by rewrite lookup_insert_ne.
Qed.

Lemma foldl_insert_origin pairs acc k v :
  foldl ins acc pairs !! k = Some v → (k, v) ∈ pairs ∨ acc !! k = Some v.
Proof.
  revert acc. induction pairs as [|[j y] pairs IH]; intros acc; simpl; [auto|].
  intros [Hin|Hacc]%IH; [left; by constructor|].
  unfold ins in Hacc. simpl in Hacc.
  destruct (decide (j = k)) as [->|Hne].
  - rewrite lookup_insert_eq in Hacc. injection Hacc as ->. left. constructor.
  - rewrite lookup_insert_ne in Hacc by done. by right.
Qed.

Lemma foldl_insert_in pairs acc k :
  k ∈ pairs.*1 → is_Some (foldl ins acc pairs !! k).
Proof.
  revert acc. induction pairs as [|[j y] pairs IH]; intros acc; simpl.
  - by intros ?%elem_of_nil.
  - intros Hin. destruct (decide (k ∈ pairs.*1)) as [Hk|Hk]; [by apply IH|].
    rewrite foldl_insert_notin by done.
    apply elem_of_cons in Hin as [->|?]; [|done].
    unfold ins. simpl. rewrite lookup_insert_eq. by eexists.
Qed.

Lemma foldl_insert_nodup pairs acc k v :
  NoDup pairs.*1 → (k, v) ∈ pairs → foldl ins acc pairs !! k = Some v.
Proof.
  intros Hnd Hin.
  destruct (foldl_insert_in pairs acc k) as [v' Hv'].
  { apply list_elem_of_fmap. by exists (k, v). }
  rewrite Hv'. f_equal.
  revert acc Hv'. induction pairs as [|[j y] pairs IH]; intros acc; simpl.
  - by apply elem_of_nil in Hin.
  - apply NoDup_cons in Hnd as [Hj Hnd]. simpl in *.
    apply elem_of_cons in Hin as [[= <- <-]|Hin].
    + rewrite foldl_insert_notin by done. unfold ins. simpl.
      rewrite lookup_insert_eq. by intros [= ->].
    + by apply IH.
Qed.

Lemma dict_lookup_nodup pairs k v :
  NoDup pairs.*1 → (k, v) ∈ pairs → dict pairs !! k = Some v.
Proof. apply foldl_insert_nodup. Qed.

Lemma dict_lookup_notin pairs k : k ∉ pairs.*1 → dict pairs !! k = None.
Proof. intros H. unfold dict. by rewrite (foldl_insert_notin _ _ _ H). Qed.

Lemma dict_lookup_in pairs k : k ∈ pairs.*1 → is_Some (dict pairs !! k).
Proof. apply foldl_insert_in. Qed.

Lemma dict_lookup_origin pairs k v : dict pairs !! k = Some v → (k, v) ∈ pairs.
Proof.
  intros [?|H]%foldl_insert_origin; [done|]. by rewrite lookup_empty in H.
Qed.

End dict_lemmas.

(** ** The rows of [DictReader] *)

Lemma zip_keys {B} (h : list string) (k : list B) :
  (zip h k).*1 = take (length k) h.
Proof.
  rewrite <- (zip_with_take_l _ h k). apply fst_zip.
  rewrite length_take. lia.
Qed.

Lemma pad_lookup (d : gmap string cell) keys k :
  foldl (λ d key, <[key := None]> d) d keys !! k =
  if decide (k ∈ keys) then Some None else d !! k.
Proof.
  revert d. induction keys as [|j keys IH]; intros d; simpl.
  - done.
  - rewrite IH. destruct (decide (k ∈ keys)) as [Hk|Hk].
    + by rewrite decide_True by (by right).
    + destruct (decide (k = j)) as [->|Hne].
      * rewrite decide_True by left. by rewrite lookup_insert_eq.
      * rewrite decide_False by (by intros [?|?]%elem_of_cons).
        by rewrite lookup_insert_ne.
Qed.

(** [make_dict], case by case on the two lengths. *)
Lemma named_make_dict h r :
  named (DictReader.make_dict h r) =
  if decide (length r < length h)
  then foldl (λ d key, <[key := None]> d)
         (dict (zip h (Some <$> r))) (drop (length r) h)
  else dict (zip h (Some <$> r)).
Proof.
  unfold DictReader.make_dict.
  repeat case_bool_decide; case_decide; simpl; done || lia.
Qed.

Lemma rest_make_dict h r :
  rest (DictReader.make_dict h r) =
  if decide (length h < length r) then Some (drop (length h) r) else None.
Proof.
  unfold DictReader.make_dict.
  repeat case_bool_decide; case_decide; simpl; done || lia.
Qed.

(** Every name of the header is a key of the row: the lookup [row[col]]
    cannot fail. *)
Lemma make_dict_lookup_is_Some h r col :
  col ∈ h → is_Some (named (DictReader.make_dict h r) !! col).
Proof.
  intros Hin. rewrite named_make_dict. case_decide as Hlen.
  - rewrite pad_lookup. case_decide as Hd; [by eexists|].
    apply dict_lookup_in. rewrite zip_keys, length_fmap.
    rewrite <- (take_drop (length r) h) in Hin.
    by apply elem_of_app in Hin as [?|?].
  - apply dict_lookup_in. rewrite zip_keys, length_fmap.
    rewrite take_ge by lia. done.
Qed.

(** With distinct names, the name at position [i] of the header is bound
    to the field at position [i] of the record, or to [None] when the record
    has no such field. *)
Lemma make_dict_lookup_nodup h r i col :
  NoDup h → h !! i = Some col →
  named (DictReader.make_dict h r) !! col = Some (r !! i).
Proof.
  intros Hnd Hi. rewrite named_make_dict.
  assert (NoDup (zip h (Some <$> r)).*1) as Hndz.
  { rewrite zip_keys. eapply sublist_NoDup; [done|apply sublist_take]. }
  destruct (r !! i) as [v|] eqn:Hr.
  - assert (dict (zip h (Some <$> r)) !! col = Some (Some v)) as Hd.
    { apply dict_lookup_nodup; [done|].
      apply list_elem_of_lookup. exists i.
      apply lookup_zip_with_Some. exists col, (Some v).
      by rewrite list_lookup_fmap, Hr. }
    case_decide as Hlen; [|done].
    rewrite pad_lookup. rewrite decide_False; [done|].
    intros [j Hj]%list_elem_of_lookup. rewrite lookup_drop in Hj.
    apply lookup_lt_Some in Hr.
    pose proof (NoDup_lookup _ _ _ _ Hnd Hi Hj). lia.
  - apply lookup_ge_None in Hr. pose proof (lookup_lt_Some _ _ _ Hi).
    rewrite decide_True by lia. rewrite pad_lookup, decide_True; [done|].
    apply list_elem_of_lookup. exists (i - length r).
    rewrite lookup_drop. by replace (length r + (i - length r)) with i by lia.
Qed.

(** The surplus fields of a long record do not reach the named part. *)
Lemma named_make_dict_take h r :
  named (DictReader.make_dict h r) =
  named (DictReader.make_dict h (take (length h) r)).
Proof.
  rewrite !named_make_dict, length_take.
  rewrite fmap_take, zip_with_take_r.
  destruct (decide (length r < length h)).
  - rewrite decide_True by lia. by replace (length h `min` length r)
      with (length r) by lia.
  - by rewrite decide_False by lia.
Qed.

(** ** The writer side *)

Lemma append_cons x (a b : string) : String x a +:+ b = String x (a +:+ b).
Proof. reflexivity. Qed.

Lemma append_empty_l (a : string) : "" +:+ a = a.
Proof. reflexivity. Qed.

Lemma append_assoc (a b c : string) : (a +:+ b) +:+ c = a +:+ (b +:+ c).
Proof.
  induction a as [|x a IH]; [done|]. rewrite !append_cons. by f_equal.
Qed.

Lemma append_empty_r (a : string) : a +:+ "" = a.
Proof. induction a as [|x a IH]; [done|]. rewrite append_cons. by f_equal. Qed.

Lemma printed_printed p s1 s2 :
  printed (printed p s1) s2 = printed p (s1 +:+ s2).
Proof. unfold printed. simpl. by rewrite append_assoc. Qed.

Lemma printed_empty p : printed p "" = p.
Proof. destruct p. unfold printed. simpl. by rewrite append_empty_r. Qed.

Lemma dict_comprehension_ok d cols acc :
  (∀ col, col ∈ cols → is_Some (named d !! col)) →
  ∃ m, dict_comprehension d cols acc = inr m ∧
       ∀ k, m !! k = if decide (k ∈ cols) then named d !! k else acc !! k.
Proof.
  revert acc. induction cols as [|col cols IH]; intros acc Hall; simpl.
  - by exists acc.
  - destruct (Hall col) as [v Hv]; [left|]. rewrite Hv.
    destruct (IH (<[col := v]> acc)) as (m & -> & Hm).
    { intros c Hc. apply Hall. by right. }
    exists m. split; [done|]. intros k. rewrite Hm.
    destruct (decide (k ∈ cols)) as [Hk|Hk].
    + by rewrite decide_True by (by right).
    + destruct (decide (k = col)) as [->|Hne].
      * rewrite decide_True by left. by rewrite lookup_insert_eq.
      * rewrite decide_False by (by intros [?|?]%elem_of_cons).
        by rewrite lookup_insert_ne.
Qed.

Lemma dict_to_list_ok f cols (m : gmap string cell) :
  (∀ k, is_Some (m !! k) → k ∈ cols) →
  DictWriter._dict_to_list {| DictWriter.f := f; DictWriter.fieldnames := cols |} m =
  inr ((λ key, default (Some "") (m !! key)) <$> cols).
Proof.
  intros Hdom. unfold DictWriter._dict_to_list. simpl.
  rewrite bool_decide_false; [done|].
  intros Hne. apply Hne. apply set_eq. intros k.
  rewrite elem_of_difference, elem_of_dom, elem_of_list_to_set.
  split; [|by intros ?%elem_of_empty]. intros [Hk Hnk]. destruct Hnk. auto.
Qed.

Lemma loop_body_spec cols d p :
  (∀ col, col ∈ cols → is_Some (named d !! col)) →
  loop_body {| DictWriter.f := stdout; DictWriter.fieldnames := cols |} cols d p =
  (printed p (csv.writerow (cells cols d)), inr tt).
Proof.
  intros Hall. unfold loop_body, mbind, io_bind.
  destruct (dict_comprehension_ok d cols ∅ Hall) as (m & -> & Hm). simpl.
  unfold DictWriter.writerow, mbind, io_bind.
  rewrite dict_to_list_ok; simpl.
  - unfold printed, cells. do 4 f_equal. apply list_fmap_ext.
    intros i col Hi. apply list_elem_of_lookup_2 in Hi.
    rewrite Hm, decide_True by done. by destruct (Hall col Hi) as [v ->].
  - intros k [v Hk]. rewrite Hm in Hk. case_decide; [done|].
    by rewrite lookup_empty in Hk.
Qed.

Lemma zip_self_elem (cols : list string) k (x : cell) :
  (k, x) ∈ zip cols (Some <$> cols) → x = Some k.
Proof.
  intros [i Hi]%list_elem_of_lookup.
  apply lookup_zip_with_Some in Hi as (a & b & [= -> ->] & Ha & Hb).
  rewrite list_lookup_fmap, Ha in Hb. by injection Hb as <-.
Qed.

Lemma writeheader_spec cols p :
  DictWriter.writeheader {| DictWriter.f := stdout; DictWriter.fieldnames := cols |} p =
  (printed p (csv.writerow (Some <$> cols)), inr tt).
Proof.
  unfold DictWriter.writeheader, DictWriter.writerow, mbind, io_bind. simpl.
  rewrite dict_to_list_ok; simpl.
  - unfold printed. do 4 f_equal. apply list_fmap_ext.
    intros i col Hi. apply list_elem_of_lookup_2 in Hi.
    destruct (dict_lookup_in (zip cols (Some <$> cols)) col) as [x Hx].
    { rewrite zip_keys, length_fmap, take_ge by lia. done. }
    rewrite Hx. simpl. by apply dict_lookup_origin, zip_self_elem in Hx.
  - intros k [v Hk]. by apply dict_lookup_origin, elem_of_zip_l in Hk.
Qed.

(** ** What [remove_columns] does *)

Lemma kept_in_header rm h col : col ∈ kept rm h → col ∈ h.
Proof. unfold kept. by intros [_ ?]%list_elem_of_filter. Qed.

Lemma run_rows_loop_body rm h rows err p :
  run_rows
    (loop_body {| DictWriter.f := stdout; DictWriter.fieldnames := kept rm h |}
       (kept rm h))
    (DictReader.make_dict h <$> rows) err p =
  (printed p (concat_lines (row_line rm h <$> rows)),
   from_option inl (inr tt) err).
Proof.
  revert p. induction rows as [|r rows IH]; intros p; simpl.
  - by rewrite printed_empty.
  - rewrite loop_body_spec.
    + rewrite IH, printed_printed. done.
    + intros col Hc%kept_in_header. by apply make_dict_lookup_is_Some.
Qed.

(** The run of [remove_columns] on a fresh [DictReader] over [lines]: the
    text appended to standard output and the way the call ends are those of
    [transcript] at the records of [lines]; nothing else changes. *)
Lemma remove_columns_spec lines writer rm p :
  remove_columns (DictReader.new lines) writer rm p =
  (printed p (transcript rm (records (csv.reader lines))).1,
   (transcript rm (records (csv.reader lines))).2).
Proof.
  unfold remove_columns, mbind, io_bind, DictReader.fieldnames, mbind, exn_bind.
  simpl. rewrite (records_eq (csv.reader lines)).
  destruct (Reader_iternext (csv.reader lines)) as [e|[h r]] eqn:E; simpl.
  - destruct e; simpl; by rewrite printed_empty.
  - fold (kept rm h). rewrite writeheader_spec.
    rewrite (for_in_spec _ h) by done. simpl.
    rewrite run_rows_loop_body, printed_printed. done.
Qed.

Lemma parse_add_char_error self c e :
  parse_add_char self c = inl e → is_csv_Error e.
Proof. unfold parse_add_char. case_match; [|done]. intros [= <-]. by eexists. Qed.

Lemma add_then_error s self c e : add_then s self c = inl e → is_csv_Error e.
Proof.
  unfold add_then. destruct c as [ch|]; [|done].
  destruct (parse_add_char self ch) eqn:E; [|done].
  intros [= <-]. by eapply parse_add_char_error.
Qed.

Lemma parse_process_char_error self c e :
  parse_process_char self c = inl e → is_csv_Error e.
Proof.
  unfold parse_process_char, start_field.
  destruct (state self); repeat case_match;
    try done; try (by eapply add_then_error).
  intros [= <-]. by eexists.
Qed.

Lemma process_line_error self line e :
  process_line self line = inl e → is_csv_Error e.
Proof.
  revert self. induction line as [|c line IH]; intros self; simpl.
  - apply parse_process_char_error.
  - destruct (parse_process_char self (Ch c)) eqn:E; [|by apply IH].
    intros [= <-]. by eapply parse_process_char_error.
Qed.

Lemma iternext_loop_error self lines n e :
  iternext_loop self lines n = inl e → e = StopIteration ∨ is_csv_Error e.
Proof.
  revert self n. induction lines as [|line lines IH]; intros self n; simpl.
  - case_match; [done|]. intros [= <-]. by left.
  - destruct (process_line self line) eqn:E.
    + intros [= <-]. right. by eapply process_line_error.
    + case_match; [by apply IH|done].
Qed.

Lemma records_err_csv r e : (records r).2 = Some e → is_csv_Error e.
Proof.
  induction r as [r IH] using reader_ind. rewrite records_eq.
  destruct (Reader_iternext r) as [e'|[row r']] eqn:E; simpl.
  - apply iternext_loop_error in E as [->|[msg ->]]; [done|].
    intros [= <-]. by eexists.
  - by eapply IH.
Qed.

(** ** What a run of the script does *)

Lemma run_usage w :
  length (sys_argv w) < 2 → run w = (usage, inl (SystemExit 1)).
Proof.
  intros Hlen. unfold run, main, mbind, io_bind.
  by rewrite bool_decide_true by done.
Qed.

Lemma run_file w maybe_file infile :
  sys_argv w !! 1 = Some maybe_file → open w maybe_file = inr infile →
  run w = remove_columns (DictReader.new infile) stdout remove_list startup.
Proof.
  intros Harg Hopen. unfold run, main, mbind, io_bind.
  apply lookup_lt_Some in Harg as Hlen.
  rewrite bool_decide_false by lia. simpl. rewrite Harg. simpl.
  by rewrite Hopen.
Qed.

Lemma run_stdin w maybe_file :
  sys_argv w !! 1 = Some maybe_file →
  open w maybe_file = inl FileNotFoundError →
  run w = remove_columns (DictReader.new (sys_stdin w)) stdout remove_list
            {| sys_stdout := ""; sys_stderr := "";
               columns := Some (drop 1 (sys_argv w)) |}.
Proof.
  intros Harg Hopen. unfold run, main, mbind, io_bind.
  apply lookup_lt_Some in Harg as Hlen.
  rewrite bool_decide_false by lia. simpl. rewrite Harg. simpl.
  by rewrite Hopen.
Qed.

Lemma input_stream_cases w ls :
  input_stream w = Some ls →
  ∃ maybe_file, sys_argv w !! 1 = Some maybe_file ∧
    (open w maybe_file = inr ls ∨
     open w maybe_file = inl FileNotFoundError ∧ ls = sys_stdin w).
Proof.
  unfold input_stream. destruct (sys_argv w) as [|a0 [|a1 args]]; [done..|].
  intros H. exists a1. split; [done|].
  destruct (open w a1) as [e|infile]; [|left; congruence].
  destruct e; try done. right. split; congruence.
Qed.

(** Whichever way the input was found, the run is [transcript] at the
    records of the input, with the built-in list. *)
Lemma run_spec w ls :
  input_stream w = Some ls →
  let t := transcript remove_list (records (csv.reader ls)) in
  sys_stdout (run w).1 = t.1 ∧ sys_stderr (run w).1 = "" ∧ (run w).2 = t.2.
Proof.
  intros (maybe_file & Harg & [Hopen|[Hopen ->]])%input_stream_cases; simpl.
  - by rewrite (run_file _ _ _ Harg Hopen), remove_columns_spec.
  - by rewrite (run_stdin _ _ Harg Hopen), remove_columns_spec.
Qed.

(** ** The scenarios of the specification *)

Example scenario_header_only_survivors :
  run (on_file ["pycsv.py"; "in.csv"] [line "A,B,E1,C,C2"]) =
  (printed startup (line "A,B,C"), inr tt).
Proof. by vm_compute. Qed.

Example scenario_one_row :
  run (on_file ["pycsv.py"; "in.csv"] [line "A,E1"; line "1,2"]) =
  (printed startup (line "A" +:+ line "1"), inr tt).
Proof. by vm_compute. Qed.

Example scenario_no_rows :
  run (on_file ["pycsv.py"; "in.csv"] [line "A,E1"]) =
  (printed startup (line "A"), inr tt).
Proof. by vm_compute. Qed.

Example scenario_nothing_to_remove :
  run (on_file ["pycsv.py"; "in.csv"] [line "X,Y"; line "1,2"]) =
  (printed startup (line "X,Y" +:+ line "1,2"), inr tt).
Proof. by vm_compute. Qed.

Example scenario_quoted_comma :
  let row := line (chr DQUOTE +:+ "1,2" +:+ chr DQUOTE +:+ ",3") in
  run (on_file ["pycsv.py"; "in.csv"] [line "A,B"; row]) =
  (printed startup (line "A,B" +:+ row), inr tt).
Proof. by vm_compute. Qed.

Example scenario_empty_input :
  run (on_file ["pycsv.py"; "in.csv"] []) =
  (startup, inl (TypeError "'NoneType' object is not iterable")).
Proof. by vm_compute. Qed.

(** ** Further facts about rows and written lines *)

Lemma cells_lookup cols d j col :
  cols !! j = Some col →
  cells cols d !! j = Some (default None (named d !! col)).
Proof. intros Hj. unfold cells. by rewrite list_lookup_fmap, Hj. Qed.

(** A string free of commas, quotes and line feeds goes to the output as it
    is. *)
Lemma copy_data_plain s : any_special s = false → copy_data s = s.
Proof.
  induction s as [|c s IH]; simpl; [done|].
  intros [Hc Hs]%orb_false_elim. unfold special in Hc.
  apply orb_false_elim in Hc as [[_ Hq]%orb_false_elim _].
  rewrite Hq. by rewrite IH.
Qed.

Lemma remove_columns_never_KeyError lines rm key :
  (remove_columns (DictReader.new lines) stdout rm startup).2 ≠
  inl (KeyError key).
Proof.
  rewrite remove_columns_spec. simpl. unfold transcript.
  destruct (records (csv.reader lines)) as [[|h rows] [e|]] eqn:E;
    simpl; try done.
  all: intros [= ->].
  all: by destruct (records_err_csv (csv.reader lines) (KeyError key))
         as [msg ?]; [rewrite E|].
Qed.

Lemma nonblank_take n rows :
  0 < n → nonblank (take n <$> rows) = take n <$> nonblank rows.
Proof.
  intros Hn. unfold nonblank. induction rows as [|r rows IH]; [done|].
  rewrite fmap_cons. destruct r as [|c r].
  - rewrite take_nil. by rewrite !filter_cons_False by naive_solver.
  - rewrite !filter_cons_True; [by rewrite fmap_cons, IH|done|].
    destruct n; [lia|done].
Qed.

Lemma row_line_take rm h r :
  row_line rm h r = row_line rm h (take (length h) r).
Proof. unfold row_line, cells. by rewrite named_make_dict_take. Qed.

Lemma kept_nothing_removed h : kept [] h = h.
Proof.
  unfold kept. induction h as [|col h IH]; [done|].
  rewrite filter_cons_True by apply not_elem_of_nil. by rewrite IH.
Qed.

Lemma cells_full_record h r :
  NoDup h → length r = length h →
  cells h (DictReader.make_dict h r) = Some <$> r.
Proof.
  intros Hnd Hlen. apply list_eq. intros i. unfold cells.
  rewrite !list_lookup_fmap. destruct (h !! i) as [col|] eqn:Hi; simpl.
  - rewrite (make_dict_lookup_nodup h r i col Hnd Hi). simpl.
    apply lookup_lt_Some in Hi.
    destruct (lookup_lt_is_Some_2 r i) as [s ->]; [lia|done].
  - apply lookup_ge_None in Hi. by rewrite (lookup_ge_None_2 r i) by lia.
Qed.

Lemma nonblank_full_records (h : list string) (rows : list (list string)) :
  h ≠ [] → Forall (λ r : list string, length r = length h) rows →
  nonblank rows = rows.
Proof.
  intros Hh Hrows. unfold nonblank.
  induction Hrows as [|r rows Hr _ IH]; [done|].
  rewrite filter_cons_True; [by rewrite IH|].
  intros ->. by destruct h.
Qed.

Lemma kept_ext rm rm' h :
  (∀ col, col ∈ h → (col ∈ rm ↔ col ∈ rm')) → kept rm h = kept rm' h.
Proof.
  unfold kept. induction h as [|c h IH]; intros Hiff; [done|].
  assert (filter (λ col, col ∉ rm) h = filter (λ col, col ∉ rm') h) as IH'.
  { apply IH. intros col Hc. apply Hiff. by right. }
  destruct (decide (c ∈ rm)) as [Hc|Hc].
  - rewrite !filter_cons_False; [done|..].
    + intros Hn. apply Hn, Hiff; [left|done].
    + by intros Hn.
  - rewrite !filter_cons_True; [by rewrite IH'|..].
    + intros Hc'. apply Hc, Hiff; [left|done].
    + done.
Qed.


Lemma concat_lines_const {A} (l : list A) (s : string) :
  concat_lines ((λ _, s) <$> l) = concat_lines (replicate (length l) s).
Proof. induction l as [|x l IH]; csimpl; [done|]. by rewrite IH. Qed.

(** ** The size of the fields *)

Lemma length_append (a b : string) :
  String.length (a +:+ b) = String.length a + String.length b.
Proof. induction a as [|x a IH]; [done|]. rewrite append_cons. simpl. lia. Qed.

Lemma parse_reset_ok : parser_ok parse_reset.
Proof. split; [done|]. split; [done|constructor]. Qed.

Lemma set_state_ok s self : parser_ok self → parser_ok (set_state s self).
Proof. done. Qed.

Lemma parse_save_field_ok self :
  parser_ok self → parser_ok (parse_save_field self).
Proof.
  intros (Hlen & Hlim & Hfs). split; [done|]. split; [done|]. simpl.
  apply Forall_app. split; [done|]. constructor; [|constructor].
  unfold within_limit. by rewrite <- Hlen.
Qed.

Lemma parse_add_char_ok self c self' :
  parser_ok self → parse_add_char self c = inr self' → parser_ok self'.
Proof.
  intros (Hlen & Hlim & Hfs). unfold parse_add_char.
  destruct (field_limit <=? field_len self)%N eqn:E; [done|].
  apply N.leb_gt in E. intros [= <-]. split; [|split]; simpl.
  - rewrite length_append, Hlen. simpl. lia.
  - lia.
  - done.
Qed.

Lemma add_then_ok s self c self' :
  parser_ok self → add_then s self c = inr self' → parser_ok self'.
Proof.
  intros Hok. unfold add_then. destruct c as [ch|].
  - destruct (parse_add_char self ch) as [e|self1] eqn:E; [done|].
    intros [= <-]. by eapply set_state_ok, parse_add_char_ok.
  - intros [= <-]. by apply set_state_ok.
Qed.

Lemma parse_process_char_ok self c self' :
  parser_ok self → parse_process_char self c = inr self' → parser_ok self'.
Proof.
  intros Hok. unfold parse_process_char, start_field.
  destruct (state self); repeat case_match; try done;
    try (intros [= <-]);
    eauto using set_state_ok, parse_save_field_ok, add_then_ok.
Qed.

Lemma process_line_ok self line self' :
  parser_ok self → process_line self line = inr self' → parser_ok self'.
Proof.
  revert self. induction line as [|c line IH]; intros self Hok; simpl.
  - by apply parse_process_char_ok.
  - destruct (parse_process_char self (Ch c)) as [e|self1] eqn:E; [done|].
    apply IH. by eapply parse_process_char_ok.
Qed.

Lemma iternext_loop_within_limit self lines n row r :
  parser_ok self → iternext_loop self lines n = inr (row, r) →
  Forall within_limit row.
Proof.
  revert self n. induction lines as [|l lines IH]; intros self n Hok; simpl.
  - case_match; [|done]. intros [= <- _].
    by destruct (parse_save_field_ok self Hok) as (_ & _ & ?).
  - destruct (process_line self l) as [e|self1] eqn:E; [done|].
    pose proof (process_line_ok _ _ _ Hok E) as Hok1.
    case_bool_decide; [by apply IH|]. intros [= <- _]. by destruct Hok1 as (_ & _ & ?).
Qed.

Lemma records_within_limit r : Forall (Forall within_limit) (records r).1.
Proof.
  induction r as [r IH] using reader_ind. rewrite records_eq.
  destruct (Reader_iternext r) as [e|[row r']] eqn:E; simpl; [constructor|].
  constructor; [|by eapply IH].
  eapply iternext_loop_within_limit; [apply parse_reset_ok|exact E].
Qed.

(** ** Reading back what the writer wrote *)

Lemma process_line_feed self s :
  process_line self s =
  match feed self s with
  | inl e => inl e
  | inr self' => parse_process_char self' EOL
  end.
Proof.
  revert self. induction s as [|c s IH]; intros self; simpl; [done|].
  by destruct (parse_process_char self (Ch c)).
Qed.

Lemma feed_app self s t :
  feed self (s +:+ t) =
  match feed self s with
  | inl e => inl e
  | inr self' => feed self' t
  end.
Proof.
  revert self. induction s as [|c s IH]; intros self; [done|].
  rewrite append_cons. simpl.
  by destruct (parse_process_char self (Ch c)).
Qed.

Lemma below_limit (n : N) :
  (n < field_limit)%N → (field_limit <=? n)%N = false.
Proof. intros. by apply N.leb_gt. Qed.

Section steps.
Context (fs : list string) (f : string) (n : N).

Lemma step_quoted_char c :
  c ≠ DQUOTE → (n < field_limit)%N →
  parse_process_char (mkParser fs IN_QUOTED_FIELD f n) (Ch c) =
  inr (mkParser fs IN_QUOTED_FIELD (f +:+ chr c) (n + 1)).
Proof.
  intros Hc Hn. unfold parse_process_char, add_then, parse_add_char. simpl.
  by rewrite bool_decide_false, below_limit by done.
Qed.

Lemma step_quoted_quote :
  parse_process_char (mkParser fs IN_QUOTED_FIELD f n) (Ch DQUOTE) =
  inr (mkParser fs QUOTE_IN_QUOTED_FIELD f n).
Proof. done. Qed.

Lemma step_quote_quote :
  (n < field_limit)%N →
  parse_process_char (mkParser fs QUOTE_IN_QUOTED_FIELD f n) (Ch DQUOTE) =
  inr (mkParser fs IN_QUOTED_FIELD (f +:+ chr DQUOTE) (n + 1)).
Proof.
  intros Hn. unfold parse_process_char, add_then, parse_add_char. simpl.
  by rewrite below_limit.
Qed.

Lemma step_quote_sep sep :
  sep = COMMA ∨ sep = LF →
  parse_process_char (mkParser fs QUOTE_IN_QUOTED_FIELD f n) (Ch sep) =
  inr (mkParser (fs ++ [f]) (after_sep sep) "" 0).
Proof. by intros [-> | ->]. Qed.

Lemma step_field_char c :
  c ≠ COMMA → c ≠ LF → c ≠ CR → (n < field_limit)%N →
  parse_process_char (mkParser fs IN_FIELD f n) (Ch c) =
  inr (mkParser fs IN_FIELD (f +:+ chr c) (n + 1)).
Proof.
  intros Hc Hl Hr Hn. unfold parse_process_char, add_then, parse_add_char.
  simpl. by rewrite !bool_decide_false, below_limit by done.
Qed.

Lemma step_field_sep sep :
  sep = COMMA ∨ sep = LF →
  parse_process_char (mkParser fs IN_FIELD f n) (Ch sep) =
  inr (mkParser (fs ++ [f]) (after_sep sep) "" 0).
Proof. by intros [-> | ->]. Qed.

Lemma step_start_char c :
  c ≠ COMMA → c ≠ DQUOTE → c ≠ LF → c ≠ CR → (n < field_limit)%N →
  parse_process_char (mkParser fs START_FIELD f n) (Ch c) =
  inr (mkParser fs IN_FIELD (f +:+ chr c) (n + 1)).
Proof.
  intros Hc Hq Hl Hr Hn.
  unfold parse_process_char, start_field, add_then, parse_add_char.
  simpl. by rewrite !bool_decide_false, below_limit by done.
Qed.

Lemma step_start_quote :
  parse_process_char (mkParser fs START_FIELD f n) (Ch DQUOTE) =
  inr (mkParser fs IN_QUOTED_FIELD f n).
Proof. done. Qed.

Lemma step_start_sep sep :
  sep = COMMA ∨ sep = LF →
  parse_process_char (mkParser fs START_FIELD f n) (Ch sep) =
  inr (mkParser (fs ++ [f]) (after_sep sep) "" 0).
Proof. by intros [-> | ->]. Qed.

Lemma step_record_as_field c :
  c ≠ LF → c ≠ CR →
  parse_process_char (mkParser fs START_RECORD f n) (Ch c) =
  parse_process_char (mkParser fs START_FIELD f n) (Ch c).
Proof.
  intros Hl Hr. unfold parse_process_char. simpl.
  by rewrite !bool_decide_false by done.
Qed.

End steps.

Lemma any_special_cons c s :
  any_special (String c s) = false →
  (c ≠ COMMA ∧ c ≠ DQUOTE ∧ c ≠ LF) ∧ any_special s = false.
Proof.
  simpl. intros [Hc Hs]%orb_false_elim. split; [|done]. unfold special in Hc.
  apply orb_false_elim in Hc as [[H1 H2]%orb_false_elim H3].
  by apply bool_decide_eq_false in H1, H2, H3.
Qed.

Lemma no_newline_cons c s :
  no_newline (String c s) = true → (c ≠ LF ∧ c ≠ CR) ∧ no_newline s = true.
Proof.
  simpl. intros [[H1 H2]%andb_true_iff Hs]%andb_true_iff. split; [|done].
  apply negb_true_iff, bool_decide_eq_false in H1, H2. done.
Qed.

Lemma feed_cons self c s :
  feed self (String c s) =
  match parse_process_char self (Ch c) with
  | inl e => inl e
  | inr self' => feed self' s
  end.
Proof. done. Qed.

Lemma feed_quoted_body d fs f n :
  (n + N.of_nat (String.length d) ≤ field_limit)%N →
  feed (mkParser fs IN_QUOTED_FIELD f n) (copy_data d) =
  inr (mkParser fs IN_QUOTED_FIELD (f +:+ d)
         (n + N.of_nat (String.length d))).
Proof.
  revert f n. induction d as [|c d IH]; intros f n Hlim.
  - simpl. by rewrite append_empty_r, N.add_0_r.
  - cbn [copy_data String.length] in *. case_bool_decide as Hc.
    + subst c. rewrite feed_cons, step_quoted_quote.
      rewrite feed_cons, step_quote_quote by lia.
      rewrite IH by lia. rewrite append_assoc. do 2 f_equal. lia.
    + rewrite feed_cons, step_quoted_char by (done || lia).
      rewrite IH by lia. rewrite append_assoc. do 2 f_equal. lia.
Qed.

Lemma feed_plain_body d fs f n :
  any_special d = false → no_newline d = true →
  (n + N.of_nat (String.length d) ≤ field_limit)%N →
  feed (mkParser fs IN_FIELD f n) d =
  inr (mkParser fs IN_FIELD (f +:+ d) (n + N.of_nat (String.length d))).
Proof.
  revert f n. induction d as [|c d IH]; intros f n Hsp Hnl Hlim.
  - simpl. by rewrite append_empty_r, N.add_0_r.
  - cbn [String.length] in *.
    apply any_special_cons in Hsp as [(? & ? & ?) Hsp].
    apply no_newline_cons in Hnl as [[? ?] Hnl].
    rewrite feed_cons, step_field_char by (done || lia).
    rewrite IH by (done || lia). rewrite append_assoc. do 2 f_equal. lia.
Qed.

Lemma feed_quoted_field d fs sep :
  within_limit d → sep = COMMA ∨ sep = LF →
  feed (mkParser fs START_FIELD "" 0) (quoted_text d +:+ chr sep) =
  inr (mkParser (fs ++ [d]) (after_sep sep) "" 0).
Proof.
  intros Hlim Hsep. unfold quoted_text, within_limit in *.
  rewrite !append_assoc.
  change (chr DQUOTE +:+ ?x) with (String DQUOTE x).
  rewrite feed_cons, step_start_quote.
  rewrite feed_app, feed_quoted_body by lia.
  change (chr DQUOTE +:+ ?x) with (String DQUOTE x).
  rewrite feed_cons, step_quoted_quote.
  change (chr sep) with (String sep "").
  rewrite feed_cons, step_quote_sep by done.
  by rewrite append_empty_l.
Qed.

Lemma feed_plain_field d fs sep :
  any_special d = false → no_newline d = true → within_limit d →
  sep = COMMA ∨ sep = LF →
  feed (mkParser fs START_FIELD "" 0) (d +:+ chr sep) =
  inr (mkParser (fs ++ [d]) (after_sep sep) "" 0).
Proof.
  intros Hsp Hnl Hlim Hsep. unfold within_limit in Hlim.
  destruct d as [|c d].
  - rewrite append_empty_l. change (chr sep) with (String sep "").
    by rewrite feed_cons, step_start_sep.
  - apply any_special_cons in Hsp as [(? & ? & ?) Hsp].
    apply no_newline_cons in Hnl as [[? ?] Hnl].
    cbn [String.length] in Hlim.
    rewrite append_cons, feed_cons, step_start_char by (done || lia).
    rewrite feed_app, feed_plain_body by (done || lia).
    change (chr sep) with (String sep "").
    rewrite feed_cons, step_field_sep by done.
    by rewrite append_empty_l.
Qed.

Lemma no_CR_cons c s :
  no_CR (String c s) = true → c ≠ CR ∧ no_CR s = true.
Proof.
  simpl. intros [H1 Hs]%andb_true_iff. split; [|done].
  by apply negb_true_iff, bool_decide_eq_false in H1.
Qed.

(** A string the writer does not quote and that has no bare carriage
    return has no line break at all. *)
Lemma plain_no_newline d :
  any_special d = false → bare_CR d = false → no_newline d = true.
Proof.
  unfold bare_CR. intros Hsp. rewrite Hsp. simpl.
  intros Hcr%negb_false_iff. revert Hsp Hcr.
  induction d as [|c d IH]; intros Hsp Hcr; [done|].
  apply any_special_cons in Hsp as [(_ & _ & Hl) Hsp].
  apply no_CR_cons in Hcr as [Hr Hcr]. simpl.
  rewrite !bool_decide_false by done. simpl. by apply IH.
Qed.

Lemma no_newline_bare_CR d : no_newline d = true → bare_CR d = false.
Proof.
  intros Hnl. unfold bare_CR. apply andb_false_iff. right.
  apply negb_false_iff. induction d as [|c d IH]; [done|].
  apply no_newline_cons in Hnl as [[_ Hr] Hnl]. simpl.
  rewrite bool_decide_false by done. simpl. by apply IH.
Qed.

Lemma feed_field d fs sep :
  bare_CR d = false → within_limit d → sep = COMMA ∨ sep = LF →
  feed (mkParser fs START_FIELD "" 0) (field_text d +:+ chr sep) =
  inr (mkParser (fs ++ [d]) (after_sep sep) "" 0).
Proof.
  intros Hcr Hlim Hsep. unfold field_text.
  destruct (any_special d) eqn:Hsp.
  - by apply feed_quoted_field.
  - rewrite copy_data_plain by done.
    apply feed_plain_field; auto using plain_no_newline.
Qed.

Lemma feed_fields d ds fs :
  bare_CR d = false → within_limit d →
  Forall (λ d, bare_CR d = false ∧ within_limit d) ds →
  feed (mkParser fs START_FIELD "" 0)
    (field_text d +:+ tail_text ds +:+ chr LF) =
  inr (mkParser (fs ++ d :: ds) EAT_CRNL "" 0).
Proof.
  intros Hnl Hlim Hds. revert d fs Hnl Hlim.
  induction Hds as [|d' ds [Hnl' Hlim'] _ IH]; intros d fs Hnl Hlim.
  - unfold tail_text. simpl. rewrite append_empty_l.
    by rewrite feed_field by auto.
  - unfold tail_text. rewrite fmap_cons. simpl. fold (tail_text ds).
    rewrite !append_assoc, <- (append_assoc (field_text d) (chr COMMA)).
    rewrite feed_app, feed_field by auto.
    change (after_sep COMMA) with START_FIELD.
    rewrite IH by done. by rewrite <- app_assoc.
Qed.

Lemma join_append_text rec n (c : cell) :
  0 < n →
  join_append rec n c false =
  rec +:+ chr COMMA +:+ field_text (default "" c).
Proof.
  intros Hn. unfold join_append, field_text, quoted_text.
  rewrite bool_decide_true by done. simpl.
  by rewrite append_assoc.
Qed.

Lemma join_fields_text rec n (cs : list cell) :
  0 < n →
  join_fields rec n cs =
  (rec +:+ tail_text (default "" <$> cs), n + length cs).
Proof.
  revert rec n. induction cs as [|c cs IH]; intros rec n Hn; simpl.
  - unfold tail_text. simpl. rewrite append_empty_r. f_equal. lia.
  - rewrite IH by lia. rewrite join_append_text by done.
    unfold tail_text. rewrite fmap_cons. simpl.
    rewrite !append_assoc. f_equal. lia.
Qed.

Lemma append_eq_empty (a b : string) : a +:+ b = "" → a = "" ∧ b = "".
Proof. by destruct a. Qed.

Lemma copy_data_eq_empty d : copy_data d = "" → d = "".
Proof. destruct d as [|c d]; [done|]. simpl. by case_bool_decide. Qed.

Lemma field_text_eq_empty d : field_text d = "" → d = "".
Proof.
  unfold field_text, quoted_text. destruct (any_special d); [done|].
  apply copy_data_eq_empty.
Qed.

(** The text of a record of at least one field, the record of one empty
    field apart. *)
Lemma writerow_text (c : cell) (cs : list cell) :
  ¬ (default "" c = "" ∧ cs = []) →
  csv.writerow (c :: cs) =
  field_text (default "" c) +:+ tail_text (default "" <$> cs) +:+ chr LF.
Proof.
  intros Hne. unfold csv.writerow. simpl.
  rewrite join_fields_text by lia.
  assert (join_append "" 0 c false = field_text (default "" c)) as -> by done.
  rewrite (bool_decide_false (_ = "")), andb_false_r;
    [by rewrite append_assoc|].
  intros [Hf Ht]%append_eq_empty. apply Hne.
  split; [by apply field_text_eq_empty|].
  destruct cs; [done|]. by rewrite fmap_cons in Ht.
Qed.

Lemma writerow_one_empty (c : cell) :
  default "" c = "" → csv.writerow [c] = quoted_text "" +:+ chr LF.
Proof. destruct c as [s|]; simpl; [intros ->|]; done. Qed.

(** The first field starts a record the way it starts a field, a line
    break apart. *)
Lemma feed_first_field fs c s :
  c ≠ LF → c ≠ CR →
  feed (mkParser fs START_RECORD "" 0) (String c s) =
  feed (mkParser fs START_FIELD "" 0) (String c s).
Proof. intros. by rewrite !feed_cons, step_record_as_field. Qed.

Lemma process_line_writerow (cs : list cell) :
  Forall writable cs →
  process_line parse_reset (csv.writerow cs) =
  inr (mkParser (default "" <$> cs) START_RECORD "" 0).
Proof.
  intros Hcs. destruct cs as [|c cs]; [done|].
  destruct (decide (default "" c = "" ∧ cs = [])) as [[Hc ->]|Hne].
  { rewrite (writerow_one_empty c Hc). simpl. by rewrite Hc. }
  rewrite (writerow_text c cs Hne), process_line_feed.
  apply Forall_cons in Hcs as [[Hnl Hlim] Hcs].
  assert (Forall (λ d, bare_CR d = false ∧ within_limit d)
            (default "" <$> cs)) as Hds.
  { apply Forall_fmap. eapply Forall_impl; [exact Hcs|].
    intros ? [? ?]. auto using no_newline_bare_CR. }
  pose proof (feed_fields (default "" c) (default "" <$> cs) []
                (no_newline_bare_CR _ Hnl) Hlim Hds) as Hfeed.
  assert (feed parse_reset
            (field_text (default "" c) +:+ tail_text (default "" <$> cs)
             +:+ chr LF) =
          feed (mkParser [] START_FIELD "" 0)
            (field_text (default "" c) +:+ tail_text (default "" <$> cs)
             +:+ chr LF)) as ->.
  { unfold field_text. destruct (any_special (default "" c)) eqn:Hsp.
    - unfold quoted_text. rewrite !append_assoc.
      change (chr DQUOTE +:+ ?x) with (String DQUOTE x).
      by apply feed_first_field.
    - rewrite copy_data_plain by done.
      destruct (default "" c) as [|x d] eqn:Hd.
      + destruct cs as [|c' cs]; [by destruct Hne|].
        unfold tail_text. rewrite !fmap_cons.
        cbn [concat_lines]. rewrite append_empty_l, !append_assoc.
        change (chr COMMA +:+ ?x) with (String COMMA x).
        by apply feed_first_field.
      + apply no_newline_cons in Hnl as [[? ?] _].
        rewrite append_cons. by apply feed_first_field. }
  by rewrite Hfeed.
Qed.

Lemma records_of_written (rows : list (list cell)) n :
  Forall (Forall writable) rows →
  records (mkReader (csv.writerow <$> rows) n) =
  ((λ cs : list cell, default "" <$> cs) <$> rows, None).
Proof.
  intros Hrows. revert n.
  induction Hrows as [|cs rows Hcs _ IH]; intros n; rewrite records_eq.
  - done.
  - unfold Reader_iternext. rewrite fmap_cons. simpl.
    rewrite (process_line_writerow cs Hcs). simpl. by rewrite IH.
Qed.

(** ** The lines of a text *)

Lemma readlines_from_line cur body rest :
  no_newline body = true →
  readlines_from cur (body +:+ chr LF +:+ rest) =
  (cur +:+ body +:+ chr LF) :: readlines_from "" rest.
Proof.
  revert cur. induction body as [|c body IH]; intros cur Hnl.
  - done.
  - apply no_newline_cons in Hnl as [[Hl Hr] Hnl].
    rewrite append_cons. cbn [readlines_from].
    rewrite !bool_decide_false by done.
    rewrite IH by done. by rewrite !append_assoc.
Qed.

Lemma no_newline_app a b :
  no_newline (a +:+ b) = no_newline a && no_newline b.
Proof.
  induction a as [|c a IH]; [done|]. rewrite append_cons. simpl.
  rewrite IH. by rewrite !andb_assoc.
Qed.

Lemma no_newline_copy_data d : no_newline (copy_data d) = no_newline d.
Proof.
  induction d as [|c d IH]; [done|]. simpl. case_bool_decide as Hc.
  - subst c. simpl. by rewrite IH.
  - simpl. by rewrite IH.
Qed.

Lemma no_newline_field_text d : no_newline (field_text d) = no_newline d.
Proof.
  unfold field_text, quoted_text. destruct (any_special d).
  - rewrite !no_newline_app, no_newline_copy_data. simpl.
    by rewrite andb_true_r.
  - apply no_newline_copy_data.
Qed.

Lemma no_newline_tail_text ds :
  Forall (λ d, no_newline d = true) ds → no_newline (tail_text ds) = true.
Proof.
  unfold tail_text. induction 1 as [|d ds Hd _ IH]; [done|].
  rewrite fmap_cons. cbn [concat_lines].
  by rewrite !no_newline_app, no_newline_field_text, Hd, IH.
Qed.

(** A written record is one line: text without line break, then the line
    feed. *)
Lemma writerow_line (cs : list cell) :
  Forall writable cs →
  ∃ body, csv.writerow cs = body +:+ chr LF ∧ no_newline body = true.
Proof.
  intros Hcs. destruct cs as [|c cs]; [by exists ""|].
  destruct (decide (default "" c = "" ∧ cs = [])) as [[Hc ->]|Hne].
  { exists (quoted_text ""). by rewrite (writerow_one_empty c Hc). }
  rewrite (writerow_text c cs Hne).
  exists (field_text (default "" c) +:+ tail_text (default "" <$> cs)).
  split; [by rewrite append_assoc|].
  apply Forall_cons in Hcs as [[Hnl _] Hcs].
  rewrite no_newline_app, no_newline_field_text, Hnl. simpl.
  apply no_newline_tail_text, Forall_fmap.
  eapply Forall_impl; [exact Hcs|]. by intros ? [? _].
Qed.

Lemma readlines_written (rows : list (list cell)) :
  Forall (Forall writable) rows →
  readlines (concat_lines (csv.writerow <$> rows)) = csv.writerow <$> rows.
Proof.
  unfold readlines. induction 1 as [|cs rows Hcs _ IH]; [done|].
  rewrite fmap_cons. cbn [concat_lines].
  destruct (writerow_line cs Hcs) as (body & -> & Hnl).
  rewrite append_assoc, readlines_from_line by done.
  by rewrite IH, append_empty_l.
Qed.

(** ** The records handed to the writer *)

Lemma transcript_written rm h rows err :
  (transcript rm (h :: rows, err)).1 =
  concat_lines (csv.writerow <$> written_records rm h rows).
Proof.
  unfold written_records. rewrite fmap_cons. simpl.
  by rewrite <- list_fmap_compose.
Qed.

Lemma make_dict_value_origin h r col (s : string) :
  named (DictReader.make_dict h r) !! col = Some (Some s) → s ∈ r.
Proof.
  rewrite named_make_dict. intros Hd.
  assert (dict (zip h (Some <$> r)) !! col = Some (Some s)) as Hz.
  { case_decide; [|done]. rewrite pad_lookup in Hd. by case_decide. }
  apply dict_lookup_origin, elem_of_zip_r, list_elem_of_fmap in Hz
    as (s' & [= ->] & ?). done.
Qed.

Lemma cells_writable K h r :
  Forall (λ s, no_newline s = true) r → Forall within_limit r →
  Forall writable (cells K (DictReader.make_dict h r)).
Proof.
  intros Hnl Hlim. unfold cells. apply Forall_fmap, Forall_forall.
  intros col _. simpl.
  destruct (named (DictReader.make_dict h r) !! col) as [[s|]|] eqn:Hd;
    simpl; [|done..].
  apply make_dict_value_origin in Hd. rewrite Forall_forall in Hnl, Hlim.
  split; simpl; auto.
Qed.

Lemma written_records_writable rm h rows :
  Forall (Forall (λ s, no_newline s = true)) (h :: rows) →
  Forall (Forall within_limit) (h :: rows) →
  Forall (Forall writable) (written_records rm h rows).
Proof.
  intros [Hh Hrows]%Forall_cons [Lh Lrows]%Forall_cons.
  unfold written_records. constructor.
  - apply Forall_fmap, Forall_forall. intros col Hc%kept_in_header.
    rewrite Forall_forall in Hh, Lh. split; simpl; auto.
  - apply Forall_fmap, Forall_forall. intros r Hr. simpl.
    apply list_elem_of_filter in Hr as [_ Hr].
    rewrite Forall_forall in Hrows, Lrows. apply cells_writable; auto.
Qed.

Lemma kept_kept rm1 rm2 h : kept rm2 (kept rm1 h) = kept (rm1 ++ rm2) h.
Proof.
  unfold kept. induction h as [|c h IH]; [done|].
  destruct (decide (c ∈ rm1)) as [H1|H1].
  - rewrite (filter_cons_False (λ col, col ∉ rm1)) by (by intros ?).
    rewrite (filter_cons_False (λ col, col ∉ rm1 ++ rm2)); [done|].
    intros Hn. apply Hn, elem_of_app. by left.
  - rewrite (filter_cons_True (λ col, col ∉ rm1)) by done.
    destruct (decide (c ∈ rm2)) as [H2|H2].
    + rewrite (filter_cons_False (λ col, col ∉ rm2)) by (by intros ?).
      rewrite (filter_cons_False (λ col, col ∉ rm1 ++ rm2)); [done|].
      intros Hn. apply Hn, elem_of_app. by right.
    + rewrite (filter_cons_True (λ col, col ∉ rm2)) by done.
      rewrite (filter_cons_True (λ col, col ∉ rm1 ++ rm2)); [by rewrite IH|].
      by intros [?|?]%elem_of_app.
Qed.

Lemma zip_fmap_elem {B} (g : string → B) (ks : list string) k x :
  (k, x) ∈ zip ks (g <$> ks) → x = g k.
Proof.
  intros [i Hi]%list_elem_of_lookup.
  apply lookup_zip_with_Some in Hi as (a & b & [= -> ->] & Ha & Hb).
  rewrite list_lookup_fmap, Ha in Hb. by injection Hb as <-.
Qed.

(** A row built from one value per name binds each name to its value. *)
Lemma make_dict_of_values K (f : string → string) col :
  col ∈ K →
  named (DictReader.make_dict K (f <$> K)) !! col = Some (Some (f col)).
Proof.
  intros Hin. rewrite named_make_dict, length_fmap.
  rewrite decide_False by lia. rewrite <- list_fmap_compose.
  destruct (dict_lookup_in (zip K (Some ∘ f <$> K)) col) as [x Hx].
  { rewrite zip_keys, length_fmap, take_ge by lia. done. }
  rewrite Hx. by apply dict_lookup_origin, zip_fmap_elem in Hx as ->.
Qed.

Lemma join_fields_default rec n (cs : list cell) :
  join_fields rec n cs = join_fields rec n (Some ∘ default "" <$> cs).
Proof.
  revert rec n. induction cs as [|c cs IH]; intros rec n; [done|].
  rewrite fmap_cons. simpl. rewrite <- IH. by destruct c.
Qed.

(** The writer sees of a cell only its text: [None] is the empty string
    to it. *)
Lemma writerow_default (cs cs' : list cell) :
  default "" <$> cs = default "" <$> cs' →
  csv.writerow cs = csv.writerow cs'.
Proof.
  intros Heq. unfold csv.writerow.
  rewrite (join_fields_default _ _ cs), (join_fields_default _ _ cs').
  by rewrite !(list_fmap_compose (default "") Some), Heq.
Qed.

(** The line written for a row read back from its own written line. *)
Lemma row_line_second_pass K1 K2 (d : rowdict) :
  (∀ col, col ∈ K2 → col ∈ K1) →
  csv.writerow
    (cells K2 (DictReader.make_dict K1 (default "" <$> cells K1 d))) =
  csv.writerow (cells K2 d).
Proof.
  intros Hsub. apply writerow_default.
  set (f := λ col, default "" (default None (named d !! col))).
  assert (default "" <$> cells K1 d = f <$> K1) as ->.
  { unfold cells. by rewrite <- list_fmap_compose. }
  unfold cells. rewrite <- !list_fmap_compose. apply list_fmap_ext.
  intros i col Hi%list_elem_of_lookup_2. simpl.
  by rewrite (make_dict_of_values K1 f) by auto.
Qed.

Lemma fmap_default_Some (l : list string) :
  default "" <$> (Some <$> l) = l.
Proof. induction l as [|c l IH]; csimpl; [done|]. by rewrite IH. Qed.

Lemma nonblank_nonempty_rows (rows : list (list string)) :
  Forall (λ r, r ≠ []) rows → nonblank rows = rows.
Proof.
  unfold nonblank. induction 1 as [|r rows Hr _ IH]; [done|].
  by rewrite filter_cons_True, IH.
Qed.

(** ** Records that span several lines *)

Lemma quoted_breaks_plain b self self' :
  no_newline b = true → feed self b = inr self' → quoted_breaks self b.
Proof.
  revert self. induction b as [|c b IH]; intros self Hnl Hfeed; [done|].
  apply no_newline_cons in Hnl as [[Hl Hr] Hnl].
  rewrite feed_cons in Hfeed. cbn [quoted_breaks].
  destruct (parse_process_char self (Ch c)) as [e|self1]; [done|].
  split; [|by eapply IH]. simpl.
  by rewrite !bool_decide_false by done.
Qed.

Lemma quoted_breaks_app a b self self1 :
  quoted_breaks self a → feed self a = inr self1 → quoted_breaks self1 b →
  quoted_breaks self (a +:+ b).
Proof.
  revert self. induction a as [|c a IH]; intros self Ha Hfeed Hb.
  - by injection Hfeed as ->.
  - rewrite append_cons. rewrite feed_cons in Hfeed. cbn [quoted_breaks] in *.
    destruct (parse_process_char self (Ch c)) as [e|self2]; [done|].
    destruct Ha as [Hc Ha]. split; [done|]. by apply IH.
Qed.

Lemma quoted_breaks_prefix a b self :
  quoted_breaks self (a +:+ b) → quoted_breaks self a.
Proof.
  revert self. induction a as [|c a IH]; intros self; [done|].
  rewrite append_cons. cbn [quoted_breaks].
  destruct (parse_process_char self (Ch c)) as [e|self1]; [done|].
  intros [Hc Hab]. split; [done|]. by apply IH.
Qed.

Lemma quoted_breaks_feed s self :
  quoted_breaks self s → ∃ self', feed self s = inr self'.
Proof.
  revert self. induction s as [|c s IH]; intros self; [by eexists|].
  cbn [quoted_breaks]. rewrite feed_cons.
  destruct (parse_process_char self (Ch c)) as [e|self1]; [done|].
  intros [_ Hs]. by apply IH.
Qed.

(** The body of a quoted field may hold any line break. *)
Lemma quoted_breaks_body d fs f n :
  (n + N.of_nat (String.length d) ≤ field_limit)%N →
  quoted_breaks (mkParser fs IN_QUOTED_FIELD f n) (copy_data d).
Proof.
  revert f n. induction d as [|c d IH]; intros f n Hlim; [done|].
  cbn [copy_data String.length] in *. case_bool_decide as Hc.
  - subst c. cbn [quoted_breaks]. rewrite step_quoted_quote.
    split; [done|]. cbn [quoted_breaks]. rewrite step_quote_quote by lia.
    split; [done|]. apply IH. lia.
  - cbn [quoted_breaks]. rewrite step_quoted_char by (done || lia).
    split; [done|]. apply IH. lia.
Qed.

Lemma quoted_breaks_field d fs :
  bare_CR d = false → within_limit d →
  quoted_breaks (mkParser fs START_FIELD "" 0) (field_text d +:+ chr COMMA).
Proof.
  intros Hcr Hlim.
  pose proof (feed_field d fs COMMA Hcr Hlim (or_introl eq_refl)) as Hfeed.
  revert Hfeed. unfold field_text. destruct (any_special d) eqn:Hsp.
  - intros _. unfold quoted_text. rewrite !append_assoc.
    change (chr DQUOTE +:+ ?x) with (String DQUOTE x).
    cbn [quoted_breaks]. rewrite step_start_quote. split; [done|].
    unfold within_limit in Hlim.
    eapply quoted_breaks_app.
    + apply quoted_breaks_body. lia.
    + apply feed_quoted_body. lia.
    + change (chr DQUOTE +:+ ?x) with (String DQUOTE x).
      cbn [quoted_breaks]. rewrite step_quoted_quote. split; [done|].
      change (chr COMMA) with (String COMMA "").
      cbn [quoted_breaks].
      rewrite step_quote_sep by (by left). done.
  - rewrite copy_data_plain by done. intros Hfeed.
    eapply quoted_breaks_plain; [|exact Hfeed].
    rewrite no_newline_app, (plain_no_newline d Hsp Hcr). done.
Qed.

Lemma quoted_breaks_fields d ds fs :
  bare_CR d = false → within_limit d →
  Forall (λ d, bare_CR d = false ∧ within_limit d) ds →
  quoted_breaks (mkParser fs START_FIELD "" 0)
    (field_text d +:+ tail_text ds +:+ chr COMMA).
Proof.
  intros Hcr Hlim Hds. revert d fs Hcr Hlim.
  induction Hds as [|d' ds [Hcr' Hlim'] _ IH]; intros d fs Hcr Hlim.
  - unfold tail_text. simpl. rewrite append_empty_l.
    by apply quoted_breaks_field.
  - unfold tail_text. rewrite fmap_cons. simpl. fold (tail_text ds).
    rewrite !append_assoc, <- (append_assoc (field_text d) (chr COMMA)).
    eapply quoted_breaks_app.
    + by apply quoted_breaks_field.
    + by apply feed_field; auto.
    + change (after_sep COMMA) with START_FIELD. by apply IH.
Qed.

(** A line feed or carriage return inside quotes ends a line of the text
    and leaves the record open. *)
Lemma iternext_loop_open_line self0 cur brk self1 lines n :
  feed self0 (cur +:+ brk) = inr self1 →
  state self1 = IN_QUOTED_FIELD →
  iternext_loop self0 ((cur +:+ brk) :: lines) n =
  iternext_loop self1 lines (n + 1).
Proof.
  intros Hfeed Hq. cbn [iternext_loop].
  rewrite process_line_feed, Hfeed. unfold parse_process_char.
  rewrite Hq. simpl. by rewrite Hq.
Qed.

(** Reading the text [s +:+ t] line by line, from a place where [cur] is
    the part of the current line already passed and the record began at
    [self0]: once [s] is passed the reader stands in front of [t], having
    taken the characters of [s], whatever lines they were in. *)
Lemma read_through s :
  ∀ self0 cur self self' n t,
    feed self0 cur = inr self → quoted_breaks self s →
    feed self s = inr self' → state self' ≠ IN_QUOTED_FIELD →
    ∃ self0' cur' n',
      feed self0' cur' = inr self' ∧
      iternext_loop self0 (readlines_from cur (s +:+ t)) n =
      iternext_loop self0' (readlines_from cur' t) n'.
Proof.
  remember (String.length s) as k eqn:Hk. revert s Hk.
  induction (lt_wf k) as [k _ IH]. intros s -> self0 cur self self' n t.
  intros Hcur Hqb Hfeed Hend. destruct s as [|c s].
  { injection Hfeed as <-. by exists self0, cur, n. }
  rewrite feed_cons in Hfeed. cbn [quoted_breaks] in Hqb.
  destruct (parse_process_char self (Ch c)) as [e|self1] eqn:Hc; [done|].
  destruct Hqb as [Hnl Hqb]. rewrite append_cons. cbn [readlines_from].
  assert (feed self0 (cur +:+ chr c) = inr self1) as Hcur1.
  { rewrite feed_app, Hcur. change (chr c) with (String c "").
    by rewrite feed_cons, Hc. }
  case_bool_decide as Hlf.
  { subst c. rewrite (iternext_loop_open_line _ _ _ self1) by (done || by apply Hnl).
    eapply (IH (String.length s)); [simpl; lia|done| |done..]. done. }
  case_bool_decide as Hcr.
  2: { eapply (IH (String.length s)); [simpl; lia|done|exact Hcur1|done..]. }
  subst c. assert (state self1 = IN_QUOTED_FIELD) as Hq1.
  { by apply Hnl. }
  destruct s as [|c' s].
  { injection Hfeed as <-. done. }
  rewrite append_cons. case_bool_decide as Hlf'.
  - subst c'. rewrite feed_cons in Hfeed. cbn [quoted_breaks] in Hqb.
    destruct (parse_process_char self1 (Ch LF)) as [e|self2] eqn:Hc2; [done|].
    destruct Hqb as [Hnl2 Hqb].
    assert (feed self0 (cur +:+ chr CR +:+ chr LF) = inr self2) as Hcur2.
    { rewrite <- append_assoc, feed_app, Hcur1.
      change (chr LF) with (String LF ""). by rewrite feed_cons, Hc2. }
    rewrite <- append_assoc in Hcur2 |- *.
    rewrite (iternext_loop_open_line _ _ _ self2) by (done || by apply Hnl2).
    eapply (IH (String.length s)); [simpl; lia|done| |done..]. done.
  - rewrite (iternext_loop_open_line _ _ _ self1) by done.
    rewrite <- append_cons.
    eapply (IH (String.length (String c' s))); [simpl; lia|done| |done..].
    done.
Qed.

(** The line feed that ends a record ends its line, and the record is
    yielded. *)
Lemma read_record_end self0 cur self self1 rest n :
  feed self0 cur = inr self →
  parse_process_char self (Ch LF) = inr self1 → state self1 = EAT_CRNL →
  iternext_loop self0 (readlines_from cur (String LF rest)) n =
  inr (fields self1, {| input_iter := readlines_from "" rest;
                        line_num := n + 1 |}).
Proof.
  intros Hcur Hlf Hst. cbn [readlines_from]. rewrite bool_decide_true by done.
  cbn [iternext_loop]. rewrite process_line_feed, feed_app, Hcur.
  change (chr LF) with (String LF ""). rewrite feed_cons, Hlf. cbn [feed].
  unfold parse_process_char. rewrite Hst. simpl. done.
Qed.

(** A record whose text is [W] and a line feed, with every line break of
    [W] inside quotes, is read whole from the lines of the text. *)
Lemma read_one_record W rest n row :
  quoted_breaks parse_reset W →
  feed parse_reset (W +:+ chr LF) = inr (mkParser row EAT_CRNL "" 0) →
  ∃ n', iternext_loop parse_reset
          (readlines_from "" ((W +:+ chr LF) +:+ rest)) n =
        inr (row, {| input_iter := readlines_from "" rest; line_num := n' |}).
Proof.
  intros Hqb Hfeed.
  destruct (quoted_breaks_feed _ _ Hqb) as [selfW HW].
  rewrite feed_app, HW in Hfeed. change (chr LF) with (String LF "") in Hfeed.
  rewrite feed_cons in Hfeed.
  destruct (parse_process_char selfW (Ch LF)) as [e|self1] eqn:Hlf; [done|].
  injection Hfeed as ->.
  assert (state selfW ≠ IN_QUOTED_FIELD) as Hend.
  { intros Hq. destruct selfW as [fs st f k]. simpl in Hq. subst st.
    revert Hlf. unfold parse_process_char, add_then, parse_add_char. simpl.
    by case_match. }
  rewrite append_assoc. change (chr LF +:+ rest) with (String LF rest).
  destruct (read_through W parse_reset "" parse_reset selfW n (String LF rest))
    as (self0' & cur' & n' & Hcur & ->); [done..|].
  exists (n' + 1)%N. by rewrite (read_record_end _ _ _ _ _ _ Hcur Hlf).
Qed.

(** The text of a record starts with a character that is no line break. *)
Lemma record_text_head d ds :
  bare_CR d = false → ¬ (d = "" ∧ ds = []) →
  ∃ c s, field_text d +:+ tail_text ds = String c s ∧ c ≠ LF ∧ c ≠ CR.
Proof.
  intros Hcr Hne. unfold field_text. destruct (any_special d) eqn:Hsp.
  - unfold quoted_text. rewrite !append_assoc.
    change (chr DQUOTE +:+ ?x) with (String DQUOTE x). by eexists _, _.
  - rewrite copy_data_plain by done.
    pose proof (plain_no_newline d Hsp Hcr) as Hnl.
    destruct d as [|x d].
    + destruct ds as [|d' ds]; [by destruct Hne|].
      unfold tail_text. rewrite fmap_cons. cbn [concat_lines].
      rewrite append_empty_l, append_assoc.
      change (chr COMMA +:+ ?x) with (String COMMA x). by eexists _, _.
    + apply no_newline_cons in Hnl as [[? ?] _].
      rewrite append_cons. by eexists _, _.
Qed.

Lemma quoted_breaks_first_field fs c s :
  c ≠ LF → c ≠ CR →
  quoted_breaks (mkParser fs START_FIELD "" 0) (String c s) →
  quoted_breaks (mkParser fs START_RECORD "" 0) (String c s).
Proof. intros ? ?. cbn [quoted_breaks]. by rewrite step_record_as_field. Qed.

Lemma read_written_record (cs : list cell) rest n :
  Forall readable cs →
  ∃ n', iternext_loop parse_reset
          (readlines_from "" (csv.writerow cs +:+ rest)) n =
        inr (default "" <$> cs,
             {| input_iter := readlines_from "" rest; line_num := n' |}).
Proof.
  intros Hcs. destruct cs as [|c cs].
  { by apply (read_one_record "" rest n []). }
  destruct (decide (default "" c = "" ∧ cs = [])) as [[Hc ->]|Hne].
  { rewrite (writerow_one_empty c Hc). simpl. rewrite Hc.
    by apply (read_one_record (quoted_text "") rest n [""]). }
  rewrite (writerow_text c cs Hne).
  apply Forall_cons in Hcs as [[Hcr Hlim] Hcs].
  assert (Forall (λ d, bare_CR d = false ∧ within_limit d)
            (default "" <$> cs)) as Hds.
  { apply Forall_fmap. eapply Forall_impl; [exact Hcs|]. by intros ? [? ?]. }
  destruct (record_text_head (default "" c) (default "" <$> cs) Hcr)
    as (x & s & Hhead & Hlf & Hcrx).
  { intros [? Hnil]. apply Hne. split; [done|].
    destruct cs; [done|by rewrite fmap_cons in Hnil]. }
  rewrite fmap_cons.
  rewrite <- (append_assoc (field_text _) (tail_text _) (chr LF)).
  apply read_one_record.
  - rewrite Hhead. apply quoted_breaks_first_field; [done..|].
    rewrite <- Hhead. apply (quoted_breaks_prefix _ (chr COMMA)).
    rewrite append_assoc. by apply quoted_breaks_fields.
  - change parse_reset with (mkParser [] START_RECORD "" 0).
    rewrite Hhead, append_cons, feed_first_field by done.
    rewrite <- append_cons, <- Hhead, append_assoc.
    by apply feed_fields.
Qed.

(** What the records of a text are does not depend on the line count the
    reader starts from. *)
Lemma records_of_output (rows : list (list cell)) n :
  Forall (Forall readable) rows →
  records {| input_iter := readlines (concat_lines (csv.writerow <$> rows));
             line_num := n |} =
  ((λ cs : list cell, default "" <$> cs) <$> rows, None).
Proof.
  intros Hrows. revert n. unfold readlines.
  induction Hrows as [|cs rows Hcs _ IH]; intros n; rewrite records_eq.
  - done.
  - unfold Reader_iternext. rewrite fmap_cons.
    cbn [concat_lines input_iter line_num].
    destruct (read_written_record cs (concat_lines (csv.writerow <$> rows))
                n Hcs) as [n' ->].
    by rewrite IH.
Qed.


(** ** The output read back as CSV *)

Lemma output_of_spec rm lines :
  output_of rm lines = (transcript rm (records (csv.reader lines))).1.
Proof. unfold output_of. by rewrite remove_columns_spec. Qed.

Lemma ending_spec lines h rows err rm :
  records (csv.reader lines) = (h :: rows, err) →
  (remove_columns (DictReader.new lines) stdout rm startup).2 =
  from_option inl (inr tt) err.
Proof. intros Hrec. by rewrite remove_columns_spec, Hrec. Qed.

Lemma within_limit_empty : within_limit "".
Proof. by vm_compute. Qed.

Lemma written_records_within_limit rm h rows :
  Forall (Forall within_limit) (h :: rows) →
  Forall (Forall (λ c : cell, within_limit (default "" c)))
    (written_records rm h rows).
Proof.
  intros [Lh Lrows]%Forall_cons. unfold written_records. constructor.
  - apply Forall_fmap, Forall_forall. intros col Hc%kept_in_header.
    rewrite Forall_forall in Lh. simpl. auto.
  - apply Forall_fmap, Forall_forall. intros r Hr. simpl.
    apply list_elem_of_filter in Hr as [_ Hr].
    rewrite Forall_forall in Lrows. specialize (Lrows r Hr).
    unfold cells. apply Forall_fmap, Forall_forall. intros col _. simpl.
    destruct (named (DictReader.make_dict h r) !! col) as [[s|]|] eqn:Hd;
      simpl; [|apply within_limit_empty..].
    apply make_dict_value_origin in Hd. rewrite Forall_forall in Lrows. auto.
Qed.

Lemma written_records_readable rm h rows :
  Forall (Forall within_limit) (h :: rows) →
  no_bare_CR (written_records rm h rows) →
  Forall (Forall readable) (written_records rm h rows).
Proof.
  intros Hlim%(written_records_within_limit rm) Hcr.
  unfold no_bare_CR in Hcr. rewrite Forall_forall in Hlim, Hcr.
  apply Forall_forall. intros cs Hcs.
  specialize (Hlim cs Hcs). specialize (Hcr cs Hcs).
  rewrite Forall_forall in Hlim, Hcr. apply Forall_forall. intros c Hc.
  split; auto.
Qed.

(** The records of the output, when no cell is written with a carriage
    return outside quotes: the surviving names, then the cells of every
    non-blank data record under those names, [None] as the empty string. *)
Lemma read_back_output lines h rows err rm :
  records (csv.reader lines) = (h :: rows, err) →
  no_bare_CR (written_records rm h rows) →
  read_back (output_of rm lines) =
  (kept rm h ::
   ((λ r, default "" <$> cells (kept rm h) (DictReader.make_dict h r))
      <$> nonblank rows), None).
Proof.
  intros Hrec Hcr.
  pose proof (records_within_limit (csv.reader lines)) as Hlim.
  rewrite Hrec in Hlim. simpl in Hlim.
  pose proof (written_records_readable rm h rows Hlim Hcr) as Hw.
  rewrite output_of_spec, Hrec, transcript_written.
  unfold read_back, csv.reader. rewrite (records_of_output _ 0 Hw).
  unfold written_records. rewrite fmap_cons. do 2 f_equal.
  - apply fmap_default_Some.
  - by rewrite <- list_fmap_compose.
Qed.


(** A name that stands at a place where the record has no field is bound
    to [None], wherever else it stands. *)
Lemma make_dict_missing h r i col :
  h !! i = Some col → length r ≤ i →
  named (DictReader.make_dict h r) !! col = Some None.
Proof.
  intros Hi Hlen. rewrite named_make_dict.
  pose proof (lookup_lt_Some _ _ _ Hi).
  rewrite decide_True by lia. rewrite pad_lookup, decide_True; [done|].
  apply list_elem_of_lookup. exists (i - length r). rewrite lookup_drop.
  by replace (length r + (i - length r)) with i by lia.
Qed.


Lemma transcript_take rm (h : list string) rows err :
  h ≠ [] →
  transcript rm (h :: rows, err) =
  transcript rm (h :: (take (length h) <$> rows), err).
Proof.
  intros Hh. unfold transcript. f_equal. f_equal. f_equal.
  rewrite nonblank_take by (destruct h; [done|simpl; lia]).
  rewrite <- list_fmap_compose. apply list_fmap_ext. intros ? r _. simpl.
  rewrite (row_line_take rm h (take (length h) r)), take_take.
  rewrite Nat.min_id. apply row_line_take.
Qed.

(** ** Line terminators *)

Lemma writerow_record_text (rec : list string) :
  csv.writerow (Some <$> rec) = record_text rec +:+ chr LF.
Proof.
  destruct rec as [|d ds]; [done|]. rewrite fmap_cons. unfold record_text.
  case_bool_decide as Hd.
  - destruct Hd as [-> ->]. done.
  - rewrite writerow_text.
    + simpl default. rewrite <- list_fmap_compose.
      assert ((default "" ∘ Some <$> ds) = ds) as ->.
      { clear. induction ds as [|x ds IH]; [done|]. rewrite fmap_cons. by f_equal. }
      by rewrite append_assoc.
    + simpl. intros [-> Hnil]. apply Hd. split; [done|].
      destruct ds; [done|by rewrite fmap_cons in Hnil].
Qed.

Lemma ends_with_CR_app a b :
  b ≠ "" → ends_with_CR (a +:+ b) = ends_with_CR b.
Proof.
  intros Hb. induction a as [|c a IH]; [done|]. rewrite append_cons.
  cbn [ends_with_CR]. destruct (a +:+ b) as [|x s] eqn:Hab; [|done].
  by destruct (append_eq_empty _ _ Hab).
Qed.

Lemma ends_with_CR_no_CR d : no_CR d = true → ends_with_CR d = false.
Proof.
  induction d as [|c d IH]; [done|]. intros [Hc Hd]%no_CR_cons.
  cbn [ends_with_CR]. destruct d; [by apply bool_decide_eq_false|by apply IH].
Qed.

Lemma ends_with_CR_field d :
  bare_CR d = false → ends_with_CR (field_text d) = false.
Proof.
  intros Hcr. unfold field_text. destruct (any_special d) eqn:Hsp.
  - unfold quoted_text. rewrite <- append_assoc.
    by rewrite ends_with_CR_app.
  - rewrite copy_data_plain by done. apply ends_with_CR_no_CR.
    revert Hcr. unfold bare_CR. rewrite Hsp. simpl.
    by intros ?%negb_false_iff.
Qed.

Lemma ends_with_CR_fields x ds :
  ends_with_CR x = false → Forall (λ d, bare_CR d = false) ds →
  ends_with_CR (x +:+ tail_text ds) = false.
Proof.
  intros Hx Hds. revert x Hx. induction Hds as [|d ds Hd _ IH]; intros x Hx.
  - unfold tail_text. simpl. by rewrite append_empty_r.
  - unfold tail_text. rewrite fmap_cons. cbn [concat_lines]. fold (tail_text ds).
    rewrite <- append_assoc. apply IH.
    rewrite ends_with_CR_app by done.
    change (chr COMMA +:+ ?y) with (String COMMA y).
    cbn [ends_with_CR]. destruct (field_text d) as [|c s] eqn:Hf; [done|].
    rewrite <- Hf. by apply ends_with_CR_field.
Qed.

Lemma ends_with_CR_record rec :
  Forall (λ d, bare_CR d = false) rec → ends_with_CR (record_text rec) = false.
Proof.
  intros Hrec. destruct rec as [|d ds]; [done|].
  apply Forall_cons in Hrec as [Hd Hds]. unfold record_text.
  case_bool_decide; [done|].
  apply ends_with_CR_fields; [by apply ends_with_CR_field|done].
Qed.

(** The text of a record with at least one field starts with a character
    that is no line feed. *)
Lemma record_text_starts rec :
  Forall (λ d, bare_CR d = false) rec → rec ≠ [] →
  ∃ c s, record_text rec = String c s ∧ c ≠ LF.
Proof.
  intros Hrec Hne. destruct rec as [|d ds]; [done|].
  apply Forall_cons in Hrec as [Hd Hds]. unfold record_text.
  case_bool_decide as He; [by eexists _, _|].
  destruct (record_text_head d ds Hd He) as (c & s & -> & Hlf & _).
  by eexists _, _.
Qed.

Lemma normalize_newlines_cons_LF b :
  normalize_newlines (String LF b) = String LF (normalize_newlines b).
Proof. done. Qed.

(** A terminator between a text that does not end with a carriage return
    and a text that does not start with a line feed counts as a line
    feed. *)
Lemma normalize_terminator a t b :
  ends_with_CR a = false → terminator t →
  (∀ s, b ≠ String LF s) →
  normalize_newlines (a +:+ t +:+ b) =
  normalize_newlines (a +:+ String LF b).
Proof.
  intros Ha Ht Hb. induction a as [|c a IH].
  - rewrite !append_empty_l. destruct Ht as [-> | [-> | ->]].
    + done.
    + done.
    + change (chr CR +:+ b) with (String CR b). cbn [normalize_newlines].
      rewrite bool_decide_true by done. destruct b as [|c' b']; [done|].
      rewrite bool_decide_false; [done|]. intros ->. by eapply Hb.
  - rewrite !append_cons. cbn [normalize_newlines].
    assert (a ≠ "" → ends_with_CR a = false) as Ha'.
    { intros Hne. destruct a; [done|]. exact Ha. }
    case_bool_decide as Hc.
    + subst c. destruct a as [|c' a']; [done|].
      specialize (IH (Ha' ltac:(done))). rewrite !append_cons in *.
      case_bool_decide; [done|]. by f_equal.
    + f_equal. apply IH. destruct a; [done|]. apply Ha'. done.
Qed.

Lemma normalize_after_LF a b b' :
  normalize_newlines b = normalize_newlines b' →
  normalize_newlines (a +:+ String LF b) =
  normalize_newlines (a +:+ String LF b').
Proof.
  intros Hb. induction a as [|c a IH].
  - rewrite !append_empty_l, !normalize_newlines_cons_LF. by f_equal.
  - rewrite !append_cons. cbn [normalize_newlines].
    case_bool_decide as Hc.
    + destruct a as [|c' a'].
      * rewrite !append_empty_l in *. by rewrite !bool_decide_true.
      * rewrite !append_cons in *. case_bool_decide; [done|]. by f_equal.
    + by f_equal.
Qed.

(** Records written with whatever terminators are, up to line terminators,
    the records written with line feeds. *)
Lemma normalize_written_with recs terms :
  length terms = length recs → Forall terminator terms →
  Forall (λ rec, Forall (λ d, bare_CR d = false) rec ∧ rec ≠ []) recs →
  normalize_newlines (written_with recs terms) =
  normalize_newlines (concat_lines (csv.writerow <$> (fmap Some <$> recs))).
Proof.
  intros Hlen Hterms Hrecs. revert terms Hlen Hterms.
  induction Hrecs as [|rec recs [Hcr Hne] Hrecs IH]; intros terms Hlen Hterms.
  - by destruct terms.
  - destruct terms as [|t terms]; [done|].
    apply Forall_cons in Hterms as [Ht Hterms]. injection Hlen as Hlen.
    rewrite !fmap_cons. cbn [written_with concat_lines].
    rewrite writerow_record_text, append_assoc.
    change (chr LF +:+ ?x) with (String LF x).
    rewrite normalize_terminator; [|by apply ends_with_CR_record|done|].
    + apply normalize_after_LF. by apply IH.
    + intros s. destruct Hrecs as [|rec' recs' [Hcr' Hne'] _].
      * by destruct terms.
      * destruct terms as [|t' terms]; [done|]. cbn [written_with].
        destruct (record_text_starts rec' Hcr' Hne') as (c & s' & -> & Hc).
        rewrite append_cons. by intros [= ->].
Qed.

(** * The claims *)

(** ** The header of the output *)






(** ** The removal list, the fallback and the exit status *)

(** C5.  The removal list is the constant of twelve names, and both ways
    into the filter hand that constant to [remove_columns]: the run on an
    opened file and the run that falls back to standard input are each the
    call of [remove_columns] with [remove_list], whatever the arguments and
    the input are. *)
Theorem removal_list_is_fixed :
  remove_list =
    ["E1"; "E2"; "E3"; "E4"; "E5"; "E6"; "C1"; "C2"; "C3"; "C4"; "C5"; "C6"] ∧
  length remove_list = 12 ∧
  (∀ w maybe_file infile,
     sys_argv w !! 1 = Some maybe_file → open w maybe_file = inr infile →
     run w = remove_columns (DictReader.new infile) stdout remove_list startup) ∧
  (∀ w maybe_file,
     sys_argv w !! 1 = Some maybe_file →
     open w maybe_file = inl FileNotFoundError →
     run w = remove_columns (DictReader.new (sys_stdin w)) stdout remove_list
               {| sys_stdout := ""; sys_stderr := "";
                  columns := Some (drop 1 (sys_argv w)) |}) ∧
  (∀ w ls, input_stream w = Some ls →
     sys_stdout (run w).1 =
       (transcript remove_list (records (csv.reader ls))).1 ∧
     (run w).2 = (transcript remove_list (records (csv.reader ls))).2).
Proof.
  split; [done|]. split; [done|]. split; [|split].
  - apply run_file.
  - apply run_stdin.
  - intros w ls H. destruct (run_spec w ls H) as (? & _ & ?). done.
Qed.

Lemma removal_list_witness :
  let w1 := on_file ["pycsv.py"; "in.csv"] sample in
  let w2 := on_stdin ["pycsv.py"; "in.csv"; "A"] sample in
  (input_stream w1 = Some sample ∧ input_stream w2 = Some sample) ∧
  sys_stdout (run w1).1 =
    (transcript remove_list (records (csv.reader sample))).1 ∧
  sys_stdout (run w2).1 =
    (transcript remove_list (records (csv.reader sample))).1.
Proof.
  intros w1 w2.
  assert (input_stream w1 = Some sample) as H1 by reflexivity.
  assert (input_stream w2 = Some sample) as H2 by reflexivity.
  destruct removal_list_is_fixed as (_ & _ & _ & _ & Huse).
  split; [done|]. split.
  - exact (proj1 (Huse w1 sample H1)).
  - exact (proj1 (Huse w2 sample H2)).
Defined.

(** C7.  When [open] finds no file under the path argument, the script does
    not stop there: the run is the call of [remove_columns] on standard
    input with the built-in list; the arguments after the program name are
    bound to [columns] and nothing reads them, the text written and the way
    the run ends being those of [transcript] at the records of standard
    input; and the run does not end in [FileNotFoundError]. *)
Theorem missing_file_falls_back_to_stdin w maybe_file :
  sys_argv w !! 1 = Some maybe_file →
  open w maybe_file = inl FileNotFoundError →
  let t := transcript remove_list (records (csv.reader (sys_stdin w))) in
  run w = remove_columns (DictReader.new (sys_stdin w)) stdout remove_list
            {| sys_stdout := ""; sys_stderr := "";
               columns := Some (drop 1 (sys_argv w)) |} ∧
  columns (run w).1 = Some (drop 1 (sys_argv w)) ∧
  sys_stdout (run w).1 = t.1 ∧
  sys_stderr (run w).1 = "" ∧
  (run w).2 = t.2 ∧
  (run w).2 ≠ inl FileNotFoundError.
Proof.
  intros Harg Hopen t. split; [by apply (run_stdin _ maybe_file)|].
  rewrite (run_stdin _ _ Harg Hopen), remove_columns_spec. simpl.
  repeat split; try done. subst t. unfold transcript.
  destruct (records (csv.reader (sys_stdin w))) as [[|h rows] [e|]] eqn:E;
    simpl; try done.
  all: intros [= ->].
  all: by destruct (records_err_csv (csv.reader (sys_stdin w)) FileNotFoundError)
         as [msg ?]; [rewrite E|].
Qed.

Lemma missing_file_witness :
  let w := on_stdin ["pycsv.py"; "missing.csv"; "A"; "B"] sample in
  (sys_argv w !! 1 = Some "missing.csv" ∧
   open w "missing.csv" = inl FileNotFoundError) ∧
  columns (run w).1 = Some ["missing.csv"; "A"; "B"] ∧
  sys_stdout (run w).1 = line "A,B,C" +:+ line "1,2,4" ∧
  (run w).2 = inr tt.
Proof.
  intros w.
  assert (sys_argv w !! 1 = Some "missing.csv") as Harg by reflexivity.
  assert (open w "missing.csv" = inl FileNotFoundError) as Hopen by reflexivity.
  destruct (missing_file_falls_back_to_stdin w "missing.csv" Harg Hopen)
    as (_ & Hc & Ho & _ & Hr & _).
  split; [exact (conj Harg Hopen)|]. split; [exact Hc|]. split.
  - etrans; [exact Ho|]. vm_compute. reflexivity.
  - etrans; [exact Hr|]. vm_compute. reflexivity.
Defined.

(** C8.  With no argument after the program name the script writes the
    usage line to standard error, writes nothing to standard output and
    exits with status 1.  A run that reaches its end exits with status 0,
    and a run reaches its end whenever its input has a header and the
    reader raises nothing. *)
Theorem exit_statuses w :
  (length (sys_argv w) < 2 →
   sys_stderr (run w).1 = "Usage: script.py [file]" +:+ chr LF ∧
   sys_stdout (run w).1 = "" ∧
   (run w).2 = inl (SystemExit 1) ∧
   exit_status (run w).2 = 1%Z) ∧
  ((run w).2 = inr tt → exit_status (run w).2 = 0%Z) ∧
  (∀ ls h rows,
     input_stream w = Some ls →
     records (csv.reader ls) = (h :: rows, None) →
     (run w).2 = inr tt ∧ exit_status (run w).2 = 0%Z).
Proof.
  split; [|split].
  - intros Hlen. by rewrite (run_usage _ Hlen).
  - by intros ->.
  - intros ls h rows Hin Hrec. destruct (run_spec w ls Hin) as (_ & _ & ->).
    by rewrite Hrec.
Qed.

Lemma exit_statuses_witness :
  let w0 := on_file ["pycsv.py"] sample in
  let w1 := on_file ["pycsv.py"; "in.csv"] sample in
  (length (sys_argv w0) < 2 ∧ exit_status (run w0).2 = 1%Z) ∧
  (input_stream w1 = Some sample ∧ exit_status (run w1).2 = 0%Z).
Proof.
  intros w0 w1. split.
  - assert (length (sys_argv w0) < 2) as Hlen by (simpl; lia).
    split; [done|]. apply (proj1 (exit_statuses w0) Hlen).
  - assert (input_stream w1 = Some sample) as Hin by reflexivity.
    split; [done|].
    refine (proj2 (proj2 (proj2 (exit_statuses w1)) sample
              ["A"; "B"; "E1"; "C"; "C2"] [["1"; "2"; "3"; "4"; "5"]] Hin _)).
    by vm_compute.
Defined.

(** C10.  Two runs that read the same input write the same text to both
    streams and end the same way, whatever their argument lists are: the
    arguments bound to [columns] in the fallback branch do not reach the
    output. *)
Theorem output_determined_by_input w1 w2 ls :
  input_stream w1 = Some ls → input_stream w2 = Some ls →
  sys_stdout (run w1).1 = sys_stdout (run w2).1 ∧
  sys_stderr (run w1).1 = sys_stderr (run w2).1 ∧
  (run w1).2 = (run w2).2.
Proof.
  intros H1 H2.
  destruct (run_spec w1 ls H1) as (-> & -> & ->).
  by destruct (run_spec w2 ls H2) as (-> & -> & ->).
Qed.

Lemma output_determined_witness :
  let w1 := on_stdin ["pycsv.py"; "missing.csv"] sample in
  let w2 := on_stdin ["pycsv.py"; "missing.csv"; "A"; "B"] sample in
  (input_stream w1 = Some sample ∧ input_stream w2 = Some sample) ∧
  columns (run w1).1 ≠ columns (run w2).1 ∧
  sys_stdout (run w1).1 = sys_stdout (run w2).1 ∧
  sys_stderr (run w1).1 = sys_stderr (run w2).1 ∧
  (run w1).2 = (run w2).2.
Proof.
  intros w1 w2.
  assert (input_stream w1 = Some sample) as H1 by reflexivity.
  assert (input_stream w2 = Some sample) as H2 by reflexivity.
  split; [done|]. split; [by vm_compute|].
  exact (output_determined_by_input w1 w2 sample H1 H2).
Defined.

(** ** Row count and cell fidelity *)

(** C2, counterexamples.  Two inputs whose data records supply every
    surviving column and whose output has not one data record for each of
    them.  Under the header [E1] no column survives, the blank line that
    follows is skipped by [DictReader], and the output has no data record.
    Under the header [A] the cell [a], carriage return, [b] is written
    without quotes, and the output has the two data records [a] and [b]. *)
Lemma record_count_is_not_kept :
  (records (csv.reader [line "E1"; line ""]) = ([["E1"]; []], None) ∧
   output_of remove_list [line "E1"; line ""] = chr LF ∧
   read_back (output_of remove_list [line "E1"; line ""]) = ([[]], None) ∧
   ¬ one_output_record_per_input_record remove_list [line "E1"; line ""]) ∧
  (records (csv.reader cr_cell_input) =
     ([["A"]; ["a" +:+ chr CR +:+ "b"]], None) ∧
   output_of remove_list cr_cell_input =
     line "A" +:+ "a" +:+ chr CR +:+ line "b" ∧
   read_back (output_of remove_list cr_cell_input) =
     ([["A"]; ["a"]; ["b"]], None) ∧
   ¬ one_output_record_per_input_record remove_list cr_cell_input).
Proof.
  split.
  - assert (records (csv.reader [line "E1"; line ""]) = ([["E1"]; []], None))
      as Hrec by (vm_compute; reflexivity).
    assert (read_back (output_of remove_list [line "E1"; line ""]) =
            ([[]], None)) as Hback by (vm_compute; reflexivity).
    split; [exact Hrec|]. split; [vm_compute; reflexivity|].
    split; [exact Hback|]. intros Hclaim.
    destruct (Hclaim _ _ Hrec) as (header & data & Heq & Hlen).
    { constructor; [|constructor]. intros [|i] col Hi Hrm; [|done].
      injection Hi as <-. destruct Hrm. by vm_compute; left. }
    pose proof (eq_trans (eq_sym Hback) Heq) as Hbad.
    injection Hbad as _ <-. done.
  - assert (records (csv.reader cr_cell_input) =
            ([["A"]; ["a" +:+ chr CR +:+ "b"]], None)) as Hrec
      by (vm_compute; reflexivity).
    assert (read_back (output_of remove_list cr_cell_input) =
            ([["A"]; ["a"]; ["b"]], None)) as Hback
      by (vm_compute; reflexivity).
    split; [exact Hrec|]. split; [vm_compute; reflexivity|].
    split; [exact Hback|]. intros Hclaim.
    destruct (Hclaim _ _ Hrec) as (header & data & Heq & Hlen).
    { constructor; [|constructor]. intros [|i] col Hi Hrm; [|done].
      simpl. lia. }
    pose proof (eq_trans (eq_sym Hback) Heq) as Hbad.
    injection Hbad as _ <-. done.
Qed.

(** C2, amended.  For every input with a header whose data records each
    supply a value for every surviving column, and in which no surviving
    name or cell holds a carriage return that the writer leaves outside
    quotes: the output, read back as CSV, is one header record followed by
    exactly one data record for each non-blank data record of the input,
    in the same order, the record at place [k] holding the surviving cells
    of the non-blank record at place [k].  When at least one column
    survives, no data record is blank, and the output has as many data
    records as the input.  The call ends as the reader ends. *)
Theorem one_output_record_per_nonblank_record lines h rows err rm :
  records (csv.reader lines) = (h :: rows, err) →
  Forall (supplies rm h) rows →
  no_bare_CR (written_records rm h rows) →
  let data :=
    (λ r, default "" <$> cells (kept rm h) (DictReader.make_dict h r))
      <$> nonblank rows in
  read_back (output_of rm lines) = (kept rm h :: data, None) ∧
  length data = length (nonblank rows) ∧
  (kept rm h ≠ [] → nonblank rows = rows ∧ length data = length rows) ∧
  (remove_columns (DictReader.new lines) stdout rm startup).2 =
    from_option inl (inr tt) err.
Proof.
  intros Hrec Hsup Hcr data. subst data.
  split; [exact (read_back_output _ _ _ _ _ Hrec Hcr)|].
  split; [by rewrite length_fmap|].
  split; [|exact (ending_spec _ _ _ _ _ Hrec)].
  intros Hkept.
  assert (nonblank rows = rows) as Hnb.
  { unfold nonblank.
    destruct (kept rm h) as [|col cols] eqn:Hk; [done|].
    assert (col ∈ kept rm h) as Hcol by (rewrite Hk; left).
    apply list_elem_of_filter in Hcol as [Hrm [i Hi]%list_elem_of_lookup].
    clear Hrec Hcr. induction Hsup as [|r rows Hr Hrows IH]; [done|].
    rewrite filter_cons_True; [by rewrite IH|].
    intros ->. specialize (Hr i col Hi Hrm). simpl in Hr. lia. }
  split; [done|]. by rewrite length_fmap, Hnb.
Qed.

Lemma one_output_record_witness :
  let h := ["A"; "B"; "E1"; "C"; "C2"] in
  let rows := [["1"; "2"; "3"; "4"; "5"]] in
  (records (csv.reader sample) = (h :: rows, None) ∧
   Forall (supplies remove_list h) rows ∧
   no_bare_CR (written_records remove_list h rows)) ∧
  read_back (output_of remove_list sample) =
    ([["A"; "B"; "C"]; ["1"; "2"; "4"]], None) ∧
  output_of remove_list sample = line "A,B,C" +:+ line "1,2,4".
Proof.
  intros h rows.
  assert (records (csv.reader sample) = (h :: rows, None)) as Hrec
    by (vm_compute; reflexivity).
  assert (Forall (supplies remove_list h) rows) as Hsup.
  { constructor; [|constructor]. intros i col Hi _.
    apply lookup_lt_Some in Hi. exact Hi. }
  assert (no_bare_CR (written_records remove_list h rows)) as Hcr
    by (repeat constructor).
  split; [exact (conj Hrec (conj Hsup Hcr))|]. split.
  - etrans; [exact (proj1 (one_output_record_per_nonblank_record
                             sample h rows None remove_list Hrec Hsup Hcr))|].
    vm_compute. reflexivity.
  - vm_compute. reflexivity.
Defined.




(** ** Records shorter or longer than the header *)

(** C4, counterexample.  Under the header [A,B] the record [1] has no field
    for [B]; the run ends normally, after writing that row with an empty
    second field and the row that follows it. *)
Lemma short_row_raises_nothing :
  records (csv.reader short_row_input) =
    ([["A"; "B"]; ["1"]; ["2"; "3"]], None) ∧
  remove_columns (DictReader.new short_row_input) stdout remove_list startup =
    (printed startup (line "A,B" +:+ line "1," +:+ line "2,3"), inr tt) ∧
  ¬ short_row_raises_KeyError remove_list short_row_input.
Proof.
  split; [by vm_compute|]. split; [by vm_compute|].
  intros Hclaim.
  destruct (Hclaim ["A"; "B"] [["1"]; ["2"; "3"]] ["1"] 1 "B")
    as [key Hkey].
  - by vm_compute.
  - left.
  - reflexivity.
  - apply (bool_decide_unpack _). vm_compute. exact I.
  - simpl. lia.
  - by eapply remove_columns_never_KeyError.
Qed.

(** C4, amended.  For every input with a header, a non-blank data record
    that has no field at a place where a surviving name stands makes no
    lookup fail: [DictReader] binds the name to [None] in that row, no key
    error ends the call, and the call goes on through the remaining
    records: it writes the header line and the line of every non-blank
    data record that the reader yields, the short one among them, and ends
    as the reader ends, normally when the reader raises nothing.  When no
    surviving name or cell holds a carriage return that the writer leaves
    outside quotes, the output read back as CSV has, in the data record of
    the short row, the empty string under that name. *)
Theorem short_row_is_padded lines h rows err rm r i col :
  records (csv.reader lines) = (h :: rows, err) →
  r ∈ rows → r ≠ [] →
  h !! i = Some col → col ∉ rm → length r ≤ i →
  let run := remove_columns (DictReader.new lines) stdout rm startup in
  named (DictReader.make_dict h r) !! col = Some None ∧
  (∀ key, run.2 ≠ inl (KeyError key)) ∧
  run.2 = from_option inl (inr tt) err ∧
  (err = None → run.2 = inr tt) ∧
  r ∈ nonblank rows ∧
  sys_stdout run.1 =
    csv.writerow (Some <$> kept rm h) +:+
    concat_lines (row_line rm h <$> nonblank rows) ∧
  (no_bare_CR (written_records rm h rows) →
   ∃ data,
     read_back (sys_stdout run.1) = (kept rm h :: data, None) ∧
     length data = length (nonblank rows) ∧
     ∀ k j, nonblank rows !! k = Some r → kept rm h !! j = Some col →
       ∃ rec, data !! k = Some rec ∧ rec !! j = Some "").
Proof.
  intros Hrec Hr Hne Hi Hrm Hlen run. subst run.
  pose proof (make_dict_missing h r i col Hi Hlen) as Hd.
  pose proof (ending_spec _ _ _ _ rm Hrec) as Hend.
  split; [done|]. split; [apply remove_columns_never_KeyError|].
  split; [done|]. split; [by intros ->|].
  split; [by apply list_elem_of_filter|].
  split; [by rewrite remove_columns_spec, Hrec|].
  intros Hcr. eexists.
  split; [exact (read_back_output _ _ _ _ _ Hrec Hcr)|].
  split; [by rewrite length_fmap|].
  intros k j Hk Hj.
  exists (default "" <$> cells (kept rm h) (DictReader.make_dict h r)).
  split; [by rewrite list_lookup_fmap, Hk|].
  by rewrite list_lookup_fmap, (cells_lookup _ _ _ _ Hj), Hd.
Qed.

Lemma short_row_witness :
  let h := ["A"; "B"] in
  let rows := [["1"]; ["2"; "3"]] in
  (records (csv.reader short_row_input) = (h :: rows, None) ∧
   ["1"] ∈ rows ∧ (["1"] ≠ ([] : list string)) ∧ (h !! 1 = Some "B") ∧
   ("B" ∉ remove_list) ∧ length ["1"] ≤ 1 ∧
   no_bare_CR (written_records remove_list h rows)) ∧
  named (DictReader.make_dict h ["1"]) !! "B" = Some None ∧
  (remove_columns (DictReader.new short_row_input) stdout remove_list
     startup).2 = inr tt ∧
  output_of remove_list short_row_input =
    line "A,B" +:+ line "1," +:+ line "2,3" ∧
  (∃ data rec,
     read_back (output_of remove_list short_row_input) =
       (["A"; "B"] :: data, None) ∧
     data !! 0 = Some rec ∧ rec !! 1 = Some "") ∧
  read_back (output_of remove_list short_row_input) =
    ([["A"; "B"]; ["1"; ""]; ["2"; "3"]], None).
Proof.
  intros h rows.
  assert (records (csv.reader short_row_input) = (h :: rows, None)) as Hrec
    by (vm_compute; reflexivity).
  assert (["1"] ∈ rows) as Hr by left.
  assert (["1"] ≠ ([] : list string)) as Hne by discriminate.
  assert ("B" ∉ remove_list) as Hrm
    by (apply (bool_decide_unpack _); vm_compute; exact I).
  assert (length ["1"] ≤ 1) as Hlen by (simpl; lia).
  assert (no_bare_CR (written_records remove_list h rows)) as Hcr
    by (repeat constructor).
  destruct (short_row_is_padded short_row_input h rows None remove_list
              ["1"] 1 "B" Hrec Hr Hne eq_refl Hrm Hlen)
    as (Hd & _ & _ & Hend & _ & Hout & Hback).
  destruct (Hback Hcr) as (data & Hdata & _ & Hcell).
  destruct (Hcell 0 1 eq_refl eq_refl) as (rec & Hk & Hj).
  split; [exact (conj Hrec (conj Hr (conj Hne (conj eq_refl
                   (conj Hrm (conj Hlen Hcr))))))|].
  split; [exact Hd|]. split; [exact (Hend eq_refl)|]. split; [|split].
  - etrans; [exact Hout|]. vm_compute. reflexivity.
  - exists data, rec. exact (conj Hdata (conj Hk Hj)).
  - vm_compute. reflexivity.
Defined.

(** C9, counterexample.  The first line is blank, so the header has no
    name, and the record [1,2] has two fields more than the header.  The
    call writes an empty line for it.  With the surplus fields absent the
    record is a blank line, which [DictReader] skips: that run writes the
    empty header line alone. *)
Lemma surplus_fields_under_empty_header :
  records (csv.reader blank_header_input) = ([[]; ["1"; "2"]], None) ∧
  records (csv.reader [line ""; line ""]) = ([[]; []], None) ∧
  output_of remove_list blank_header_input = chr LF +:+ chr LF ∧
  output_of remove_list [line ""; line ""] = chr LF ∧
  ¬ surplus_fields_as_if_absent remove_list blank_header_input.
Proof.
  assert (records (csv.reader blank_header_input) = ([[]; ["1"; "2"]], None))
    as Hrec by (vm_compute; reflexivity).
  assert (records (csv.reader [line ""; line ""]) = ([[]; []], None))
    as Hrec' by (vm_compute; reflexivity).
  split; [exact Hrec|]. split; [exact Hrec'|].
  split; [vm_compute; reflexivity|]. split; [vm_compute; reflexivity|].
  intros Hclaim. specialize (Hclaim _ _ [line ""; line ""] Hrec Hrec').
  vm_compute in Hclaim. discriminate Hclaim.
Qed.

(** C9, amended.  For every input whose header has at least one name, a
    data record with more fields than the header raises nothing: the call
    ends as the reader ends.  The surplus fields are stored under the rest
    key of the row, which the script never reads, and the run, output and
    ending, is the run on any input that has the same records with the
    surplus fields absent, every data record being cut to the length of the
    header; the line written for a long record is the line written for the
    record so cut.  When no surviving name or cell holds a carriage return
    that the writer leaves outside quotes, every data record of the output
    read back as CSV has one cell for each surviving name, taken from the
    record cut to the length of the header. *)
Theorem surplus_fields_are_dropped lines h rows err rm :
  records (csv.reader lines) = (h :: rows, err) →
  h ≠ [] →
  let run := remove_columns (DictReader.new lines) stdout rm startup in
  run.2 = from_option inl (inr tt) err ∧
  (∀ lines',
     records (csv.reader lines') = (h :: (take (length h) <$> rows), err) →
     remove_columns (DictReader.new lines') stdout rm startup = run) ∧
  (∀ r, r ∈ rows → length h < length r →
     rest (DictReader.make_dict h r) = Some (drop (length h) r) ∧
     r ∈ nonblank rows ∧
     take (length h) r ∈ nonblank (take (length h) <$> rows) ∧
     row_line rm h r = row_line rm h (take (length h) r)) ∧
  (no_bare_CR (written_records rm h rows) →
   ∃ data,
     read_back (sys_stdout run.1) = (kept rm h :: data, None) ∧
     length data = length (nonblank rows) ∧
     ∀ k r, nonblank rows !! k = Some r →
       data !! k =
       Some (default "" <$>
               cells (kept rm h)
                 (DictReader.make_dict h (take (length h) r)))).
Proof.
  intros Hrec Hh run. subst run.
  split; [exact (ending_spec _ _ _ _ _ Hrec)|]. split; [|split].
  - intros lines' Hrec'.
    by rewrite !remove_columns_spec, Hrec, Hrec', (transcript_take rm h rows).
  - intros r Hr Hlen. split; [by rewrite rest_make_dict, decide_True|].
    assert (r ≠ []) as Hne by (intros ->; simpl in Hlen; lia).
    split; [by apply list_elem_of_filter|]. split; [|apply row_line_take].
    apply list_elem_of_filter. split.
    + destruct h; [done|]. destruct r; [done|]. done.
    + apply list_elem_of_fmap. by exists r.
  - intros Hcr. eexists.
    split; [exact (read_back_output _ _ _ _ _ Hrec Hcr)|].
    split; [by rewrite length_fmap|].
    intros k r Hk. rewrite list_lookup_fmap, Hk. simpl.
    unfold cells. by rewrite named_make_dict_take.
Qed.

Lemma surplus_fields_witness :
  let h := ["A"; "E1"] in
  let r := ["1"; "2"; "3"; "4"] in
  (records (csv.reader long_row_input) = (h :: [r], None) ∧ h ≠ [] ∧
   r ∈ [r] ∧ length h < length r ∧
   records (csv.reader [line "A,E1"; line "1,2"]) =
     (h :: (take (length h) <$> [r]), None) ∧
   no_bare_CR (written_records remove_list h [r])) ∧
  rest (DictReader.make_dict h r) = Some ["3"; "4"] ∧
  remove_columns (DictReader.new [line "A,E1"; line "1,2"]) stdout remove_list
    startup =
  remove_columns (DictReader.new long_row_input) stdout remove_list startup ∧
  output_of remove_list long_row_input = line "A" +:+ line "1" ∧
  (∃ data,
     read_back (output_of remove_list long_row_input) =
       (["A"] :: data, None) ∧
     data !! 0 = Some ["1"]) ∧
  read_back (output_of remove_list long_row_input) = ([["A"]; ["1"]], None).
Proof.
  intros h r.
  assert (records (csv.reader long_row_input) = (h :: [r], None)) as Hrec
    by (vm_compute; reflexivity).
  assert (h ≠ []) as Hh by discriminate.
  assert (r ∈ [r]) as Hr by left.
  assert (length h < length r) as Hlen by (simpl; lia).
  assert (records (csv.reader [line "A,E1"; line "1,2"]) =
          (h :: (take (length h) <$> [r]), None)) as Hrec'
    by (vm_compute; reflexivity).
  assert (no_bare_CR (written_records remove_list h [r])) as Hcr
    by (repeat constructor).
  destruct (surplus_fields_are_dropped long_row_input h [r] None remove_list
              Hrec Hh) as (_ & Hsame & Hrow & Hback).
  destruct (Hrow r Hr Hlen) as (Hrest & _).
  destruct (Hback Hcr) as (data & Hdata & _ & Hcut).
  split; [exact (conj Hrec (conj Hh (conj Hr (conj Hlen (conj Hrec' Hcr)))))|].
  split; [exact Hrest|]. split; [exact (Hsame _ Hrec')|]. split; [|split].
  - vm_compute. reflexivity.
  - exists data. split; [exact Hdata|]. exact (Hcut 0 r eq_refl).
  - vm_compute. reflexivity.
Defined.

(** ** Removing nothing *)

Lemma written_records_nothing_removed h rows :
  well_formed h rows →
  written_records [] h rows = (fmap (M:=list) Some <$> (h :: rows)).
Proof.
  intros (Hh & Hnd & Hrows). unfold written_records.
  rewrite kept_nothing_removed, (nonblank_full_records h rows Hh Hrows).
  rewrite fmap_cons. f_equal.
  apply Forall_fmap_ext. eapply Forall_impl; [exact Hrows|].
  intros r Hr. simpl. by apply cells_full_record.
Qed.

Lemma written_with_line_feeds recs :
  written_with recs (replicate (length recs) (chr LF)) =
  concat_lines (csv.writerow <$> (fmap Some <$> recs)).
Proof.
  induction recs as [|rec recs IH]; [done|].
  rewrite !fmap_cons. cbn [length replicate written_with concat_lines].
  by rewrite IH, writerow_record_text, append_assoc.
Qed.

(** C6, counterexamples.  Two well-formed inputs whose output, with nothing
    to remove, differs from the input by more than its line terminators.
    The quotes around the header [A] are not needed, and the writer leaves
    them out.  The quotes around the cell [a], carriage return, [b] are
    needed, and the writer leaves them out all the same: that output does
    not even hold the records of the input. *)
Lemma quotes_are_not_kept :
  (records (csv.reader quoted_header_input) = ([["A"]], None) ∧
   well_formed ["A"] [] ∧
   remove_columns (DictReader.new quoted_header_input) stdout [] startup =
     (printed startup (line "A"), inr tt) ∧
   ¬ noop_output_equals_input quoted_header_input) ∧
  (records (csv.reader cr_cell_input) =
     ([["A"]; ["a" +:+ chr CR +:+ "b"]], None) ∧
   well_formed ["A"] [["a" +:+ chr CR +:+ "b"]] ∧
   output_of [] cr_cell_input = line "A" +:+ "a" +:+ chr CR +:+ line "b" ∧
   read_back (output_of [] cr_cell_input) = ([["A"]; ["a"]; ["b"]], None) ∧
   ¬ noop_output_equals_input cr_cell_input).
Proof.
  split.
  - assert (well_formed ["A"] []) as Hwf.
    { split; [done|]. split; [|constructor].
      apply (bool_decide_unpack _). vm_compute. exact I. }
    split; [by vm_compute|]. split; [done|]. split; [by vm_compute|].
    intros Hclaim. specialize (Hclaim ["A"] [] ltac:(by vm_compute) Hwf).
    vm_compute in Hclaim. discriminate Hclaim.
  - assert (well_formed ["A"] [["a" +:+ chr CR +:+ "b"]]) as Hwf.
    { split; [done|]. split; [|by repeat constructor].
      apply (bool_decide_unpack _). vm_compute. exact I. }
    assert (records (csv.reader cr_cell_input) =
            ([["A"]; ["a" +:+ chr CR +:+ "b"]], None)) as Hrec
      by (vm_compute; reflexivity).
    split; [exact Hrec|]. split; [exact Hwf|].
    split; [vm_compute; reflexivity|]. split; [vm_compute; reflexivity|].
    intros Hclaim. specialize (Hclaim _ _ Hrec Hwf).
    vm_compute in Hclaim. discriminate Hclaim.
Qed.

(** C6, amended.  With an empty removal set, for every well-formed input
    in which no name or cell holds a carriage return that the writer
    leaves outside quotes: every column survives and every cell is
    reproduced, for the output read back as CSV has exactly the records of
    the input, and the call ends normally.  The output is those records
    written the writer's way, quotes only where they are needed and a line
    feed after each record; so whenever the input text is its records
    written that way with whatever line terminators, the output equals the
    input up to line terminators. *)
Theorem noop_removal_reproduces_records lines h rows :
  records (csv.reader lines) = (h :: rows, None) →
  well_formed h rows →
  Forall (Forall (λ s, bare_CR s = false)) (h :: rows) →
  let run := remove_columns (DictReader.new lines) stdout [] startup in
  run.2 = inr tt ∧
  kept [] h = h ∧
  read_back (sys_stdout run.1) = records (csv.reader lines) ∧
  sys_stdout run.1 =
    written_with (h :: rows) (replicate (length (h :: rows)) (chr LF)) ∧
  (∀ terms,
     length terms = length (h :: rows) → Forall terminator terms →
     concat_lines lines = written_with (h :: rows) terms →
     normalize_newlines (sys_stdout run.1) =
     normalize_newlines (concat_lines lines)).
Proof.
  intros Hrec Hwf Hcr run.
  pose proof (written_records_nothing_removed h rows Hwf) as Hwr.
  assert (sys_stdout run.1 =
          concat_lines (csv.writerow <$> (fmap Some <$> h :: rows))) as Hout.
  { subst run. rewrite remove_columns_spec, Hrec.
    cbn [fst sys_stdout printed startup]. rewrite append_empty_l.
    by rewrite transcript_written, Hwr. }
  split; [exact (ending_spec _ _ _ _ _ Hrec)|].
  split; [apply kept_nothing_removed|]. split; [|split].
  - pose proof (read_back_output lines h rows None [] Hrec) as Hback.
    unfold output_of in Hback. fold run in Hback. rewrite Hback.
    + destruct Hwf as (Hh & Hnd & Hrows).
      rewrite Hrec, kept_nothing_removed.
      rewrite (nonblank_full_records h rows Hh Hrows). do 2 f_equal.
      rewrite <- (list_fmap_id rows) at 2.
      apply Forall_fmap_ext. eapply Forall_impl; [exact Hrows|].
      intros r Hr. simpl. rewrite cells_full_record by done.
      apply fmap_default_Some.
    + unfold no_bare_CR. rewrite Hwr. apply Forall_fmap.
      eapply Forall_impl; [exact Hcr|]. intros r Hr. simpl.
      apply Forall_fmap. eapply Forall_impl; [exact Hr|]. done.
  - by rewrite Hout, written_with_line_feeds.
  - intros terms Hlen Hterms ->. rewrite Hout. symmetry.
    apply normalize_written_with; [done..|].
    destruct Hwf as (Hh & _ & Hrows).
    apply Forall_cons in Hcr as [Hcrh Hcrrows]. constructor; [done|].
    apply Forall_forall. intros r Hr. rewrite Forall_forall in Hcrrows, Hrows.
    split; [by apply Hcrrows|]. intros ->. specialize (Hrows [] Hr).
    by destruct h.
Qed.

Lemma noop_removal_witness :
  let h := ["A"; "B"] in
  let rows := [["1"; "2"]] in
  let terms := [chr CR +:+ chr LF; chr CR +:+ chr LF] in
  (records (csv.reader crlf_input) = (h :: rows, None) ∧ well_formed h rows ∧
   Forall (Forall (λ s, bare_CR s = false)) (h :: rows) ∧
   length terms = length (h :: rows) ∧ Forall terminator terms ∧
   concat_lines crlf_input = written_with (h :: rows) terms) ∧
  output_of [] crlf_input = line "A,B" +:+ line "1,2" ∧
  read_back (output_of [] crlf_input) = ([["A"; "B"]; ["1"; "2"]], None) ∧
  normalize_newlines (output_of [] crlf_input) =
    normalize_newlines (concat_lines crlf_input) ∧
  output_of [] crlf_input ≠ concat_lines crlf_input.
Proof.
  intros h rows terms.
  assert (records (csv.reader crlf_input) = (h :: rows, None)) as Hrec
    by (vm_compute; reflexivity).
  assert (well_formed h rows) as Hwf.
  { split; [done|]. split; [|by repeat constructor].
    apply (bool_decide_unpack _). vm_compute. exact I. }
  assert (Forall (Forall (λ s, bare_CR s = false)) (h :: rows)) as Hcr
    by (repeat constructor).
  assert (length terms = length (h :: rows)) as Hlen by reflexivity.
  assert (Forall terminator terms) as Hterms.
  { repeat constructor; right; by left. }
  assert (concat_lines crlf_input = written_with (h :: rows) terms) as Htext
    by (vm_compute; reflexivity).
  destruct (noop_removal_reproduces_records crlf_input h rows Hrec Hwf Hcr)
    as (_ & _ & Hback & Hout & Hnorm).
  split; [exact (conj Hrec (conj Hwf (conj Hcr (conj Hlen
                   (conj Hterms Htext)))))|].
  split; [etrans; [exact Hout|]; vm_compute; reflexivity|].
  split; [etrans; [exact Hback|]; exact Hrec|].
  split; [exact (Hnorm terms Hlen Hterms Htext)|].
  vm_compute. discriminate.
Defined.

(** * Further properties of the script *)

(** ** How a call can end *)

(** After the end-of-line marker the parser is between two records or
    inside a quoted field. *)
Lemma process_line_state self line self' :
  process_line self line = inr self' →
  state self' = START_RECORD ∨ state self' = IN_QUOTED_FIELD.
Proof.
  revert self. induction line as [|c line IH]; intros self; simpl.
  - unfold parse_process_char, start_field. simpl.
    destruct (state self) eqn:E; simpl; intros [= <-]; simpl; auto.
  - destruct (parse_process_char self (Ch c)); [done|]. apply IH.
Qed.

Lemma iternext_loop_in_quotes self lines n :
  state self = IN_QUOTED_FIELD →
  iternext_loop self lines n ≠ inl StopIteration.
Proof.
  revert self n. induction lines as [|l lines IH]; intros self n Hq; simpl.
  - rewrite (bool_decide_true (state self = _)) by done.
    by rewrite orb_true_r.
  - destruct (process_line self l) as [e|self'] eqn:E.
    + intros [= ->]. by destruct (process_line_error _ _ _ E).
    + case_bool_decide as Hs; [|done]. apply IH.
      by destruct (process_line_state _ _ _ E).
Qed.

(** The reader is exhausted exactly when no line is left. *)
Lemma Reader_iternext_stop r :
  Reader_iternext r = inl StopIteration ↔ input_iter r = [].
Proof.
  unfold Reader_iternext. destruct (input_iter r) as [|l lines]; simpl.
  - done.
  - split; [|done]. destruct (process_line parse_reset l) as [e|self'] eqn:E.
    + intros [= ->]. by destruct (process_line_error _ _ _ E).
    + case_bool_decide as Hs; [|done]. intros Hstop.
      destruct (process_line_state _ _ _ E) as [?|Hq]; [done|].
      by destruct (iternext_loop_in_quotes self' lines (line_num r + 1) Hq).
Qed.

Lemma records_nil_iff lines :
  records (csv.reader lines) = ([], None) ↔ lines = [].
Proof.
  rewrite records_eq.
  destruct (Reader_iternext (csv.reader lines)) as [e|[row r]] eqn:E.
  - split.
    + intros [= He]. destruct e; try done. by apply Reader_iternext_stop in E.
    + intros ->. by vm_compute in E; injection E as <-.
  - split; [done|]. intros ->. by vm_compute in E.
Qed.

(** X1.  [remove_columns] ends in a type error exactly when the input has
    no line at all, the header being [None] then; in that case nothing is
    written and the process state is as it was. *)
Theorem no_header_is_a_TypeError lines writer rm p :
  ((∃ msg, (remove_columns (DictReader.new lines) writer rm p).2 =
           inl (TypeError msg)) ↔ lines = []) ∧
  (lines = [] →
   remove_columns (DictReader.new lines) writer rm p =
   (p, inl (TypeError "'NoneType' object is not iterable"))).
Proof.
  rewrite remove_columns_spec. split.
  - split.
    + intros [msg Hmsg]. apply records_nil_iff. unfold transcript in Hmsg.
      destruct (records (csv.reader lines)) as [[|h rows] [e|]] eqn:E;
        simpl in Hmsg; try done.
      * injection Hmsg as ->.
        by destruct (records_err_csv (csv.reader lines) (TypeError msg))
          as [? ?]; [rewrite E|].
      * injection Hmsg as ->.
        by destruct (records_err_csv (csv.reader lines) (TypeError msg))
          as [? ?]; [rewrite E|].
    + intros Hl. apply records_nil_iff in Hl. rewrite Hl. by eexists.
  - intros Hl. apply records_nil_iff in Hl. rewrite Hl. simpl.
    by rewrite printed_empty.
Qed.

Lemma no_header_witness :
  [] = ([] : list string) ∧
  remove_columns (DictReader.new []) stdout remove_list startup =
  (startup, inl (TypeError "'NoneType' object is not iterable")).
Proof.
  split; [reflexivity|].
  exact (proj2 (no_header_is_a_TypeError [] stdout remove_list startup) eq_refl).
Defined.

Lemma remove_columns_ends lines writer rm p :
  let r := (remove_columns (DictReader.new lines) writer rm p).2 in
  r = inr tt ∨
  r = inl (TypeError "'NoneType' object is not iterable") ∨
  ∃ msg, r = inl (csv_Error msg).
Proof.
  simpl. rewrite remove_columns_spec. simpl. unfold transcript.
  destruct (records (csv.reader lines)) as [[|h rows] [e|]] eqn:E; simpl; auto.
  all: destruct (records_err_csv (csv.reader lines) e) as [msg ->];
    [by rewrite E|]; eauto.
Qed.

(** X2.  For an input that reaches the reader as its lines, read and
    decoded without error, and an output that takes every write, a call of
    [remove_columns] on a fresh reader ends in one of three ways: normally,
    in the type error of an input without header, or in a [csv.Error]
    raised by the reader.  In particular no lookup [row[col]] raises a key
    error and [DictWriter] rejects no row for a key outside its field
    names. *)
Theorem remove_columns_endings lines writer rm p :
  let r := (remove_columns (DictReader.new lines) writer rm p).2 in
  (r = inr tt ∨
   r = inl (TypeError "'NoneType' object is not iterable") ∨
   ∃ msg, r = inl (csv_Error msg)) ∧
  (∀ key, r ≠ inl (KeyError key)) ∧
  (∀ wrong_fields, r ≠ inl (ValueError wrong_fields)).
Proof.
  simpl. destruct (remove_columns_ends lines writer rm p)
    as [->|[->|[msg ->]]]; (split; [eauto|split; intros; done]).
Qed.

(** X3.  When the reader raises on a later record, the header line and the
    lines of the data records read before it are already written and stay
    written; the run ends in the reader's exception, with exit status 1,
    and writes nothing to standard error itself. *)
Theorem output_before_reader_error w ls h rows e :
  input_stream w = Some ls →
  records (csv.reader ls) = (h :: rows, Some e) →
  sys_stdout (run w).1 =
    csv.writerow (Some <$> kept remove_list h) +:+
    concat_lines (row_line remove_list h <$> nonblank rows) ∧
  sys_stderr (run w).1 = "" ∧
  (run w).2 = inl e ∧
  exit_status (run w).2 = 1%Z.
Proof.
  intros Hin Hrec. destruct (run_spec w ls Hin) as (-> & -> & ->).
  rewrite Hrec. simpl. repeat split.
  destruct (records_err_csv (csv.reader ls) e) as [msg ->]; [by rewrite Hrec|].
  done.
Qed.

Lemma output_before_reader_error_witness :
  let w := on_file ["pycsv.py"; "in.csv"] broken_input in
  (input_stream w = Some broken_input ∧
   ∃ e, records (csv.reader broken_input) =
        ([["A"; "B"]; ["1"; "2"]], Some e)) ∧
  sys_stdout (run w).1 = line "A,B" +:+ line "1,2" ∧
  exit_status (run w).2 = 1%Z.
Proof.
  intros w.
  assert (input_stream w = Some broken_input) as Hin by reflexivity.
  pose (e := csv_Error "new-line character seen in unquoted field - do you need to open the file in universal-newline mode?").
  assert (records (csv.reader broken_input) =
          ([["A"; "B"]; ["1"; "2"]], Some e)) as Hrec by (by vm_compute).
  destruct (output_before_reader_error w broken_input ["A"; "B"] [["1"; "2"]]
              e Hin Hrec) as (Hout & _ & _ & Hexit).
  split; [split; [exact Hin|by exists e]|]. split; [|exact Hexit].
  etrans; [exact Hout|]. by vm_compute.
Defined.

Lemma run_open_error w maybe_file e :
  sys_argv w !! 1 = Some maybe_file →
  open w maybe_file = inl e → e ≠ FileNotFoundError →
  run w = (startup, inl e).
Proof.
  intros Harg Hopen Hne. unfold run, main, mbind, io_bind.
  apply lookup_lt_Some in Harg as Hlen.
  rewrite bool_decide_false by lia. simpl. rewrite Harg. simpl.
  rewrite Hopen. by destruct e.
Qed.

(** X4.  An exception of [open] other than [FileNotFoundError] is not
    caught: the run ends in it before the script has read any input or
    written anything to standard output, and [columns] stays unbound. *)
Theorem open_error_propagates w maybe_file e :
  sys_argv w !! 1 = Some maybe_file →
  open w maybe_file = inl e → e ≠ FileNotFoundError →
  (run w).2 = inl e ∧
  sys_stdout (run w).1 = "" ∧
  columns (run w).1 = None.
Proof.
  intros Harg Hopen Hne. by rewrite (run_open_error _ _ _ Harg Hopen Hne).
Qed.

Lemma open_error_witness :
  let w := {| sys_argv := ["pycsv.py"; "/root"]; open := λ _, inl OSError;
              sys_stdin := sample |} in
  (sys_argv w !! 1 = Some "/root" ∧ open w "/root" = inl OSError ∧
   OSError ≠ FileNotFoundError) ∧
  (run w).2 = inl OSError ∧ sys_stdout (run w).1 = "".
Proof.
  intros w.
  assert (sys_argv w !! 1 = Some "/root") as Harg by reflexivity.
  assert (open w "/root" = inl OSError) as Hopen by reflexivity.
  assert (OSError ≠ FileNotFoundError) as Hne by discriminate.
  destruct (open_error_propagates w "/root" OSError Harg Hopen Hne)
    as (Hend & Hout & _).
  exact (conj (conj Harg (conj Hopen Hne)) (conj Hend Hout)).
Defined.

(** X5.  [remove_columns] writes to standard output only, whatever stream
    it is handed as [writer]: the text already on standard output is kept
    and extended, standard error and [columns] are left as they were. *)
Theorem remove_columns_only_extends_stdout lines writer rm p :
  let p' := (remove_columns (DictReader.new lines) writer rm p).1 in
  (∃ s, sys_stdout p' = sys_stdout p +:+ s) ∧
  sys_stderr p' = sys_stderr p ∧
  columns p' = columns p ∧
  remove_columns (DictReader.new lines) writer rm p =
  remove_columns (DictReader.new lines) stdout rm p.
Proof.
  simpl. rewrite !remove_columns_spec. simpl. split; [by eexists|done].
Qed.

(** X6.  The script itself writes to standard error in one place only, the
    usage branch: what it has written there at the end of a run is the
    usage line when it was started without an argument, in which case it
    has written nothing to standard output, and nothing otherwise.  What
    the interpreter adds for an uncaught exception is no write of the
    script. *)
Theorem stderr_is_usage_only w :
  (length (sys_argv w) < 2 ∧
   sys_stderr (run w).1 = "Usage: script.py [file]" +:+ chr LF ∧
   sys_stdout (run w).1 = "") ∨
  (2 ≤ length (sys_argv w) ∧ sys_stderr (run w).1 = "").
Proof.
  destruct (decide (length (sys_argv w) < 2)) as [Hlen|Hlen].
  - left. by rewrite (run_usage w Hlen).
  - right. split; [lia|].
    destruct (sys_argv w !! 1) as [maybe_file|] eqn:Harg.
    2: { apply lookup_ge_None in Harg. lia. }
    destruct (open w maybe_file) as [e|infile] eqn:Hopen.
    + assert (e = FileNotFoundError ∨ e ≠ FileNotFoundError) as [->|Hne]
        by (destruct e; auto).
      * by rewrite (run_stdin _ _ Harg Hopen), remove_columns_spec.
      * by rewrite (run_open_error _ _ _ Harg Hopen Hne).
    + by rewrite (run_file _ _ _ Harg Hopen), remove_columns_spec.
Qed.

(** ** The removal list and the header *)

(** X7.  The removal list matters only through which names of the header
    it holds: two lists that hold the same names of the header, in whatever
    order, with whatever repetitions and whatever other names, give the
    same run of [remove_columns]. *)
Theorem removal_list_acts_through_header lines h r writer rm rm' p :
  Reader_iternext (csv.reader lines) = inr (h, r) →
  (∀ col, col ∈ h → (col ∈ rm ↔ col ∈ rm')) →
  kept rm h = kept rm' h ∧
  remove_columns (DictReader.new lines) writer rm p =
  remove_columns (DictReader.new lines) writer rm' p.
Proof.
  intros E Hiff. pose proof (kept_ext rm rm' h Hiff) as Hk.
  split; [done|]. rewrite !remove_columns_spec.
  rewrite (records_eq (csv.reader lines)), E. simpl.
  unfold row_line. by rewrite Hk.
Qed.

Lemma removal_list_acts_witness :
  let h := ["A"; "B"; "E1"; "C"; "C2"] in
  let r := {| input_iter := [line "1,2,3,4,5"]; line_num := 1 |} in
  let rm' := ["C2"; "Z"; "E1"; "C2"] in
  (Reader_iternext (csv.reader sample) = inr (h, r) ∧
   ∀ col, col ∈ h → (col ∈ remove_list ↔ col ∈ rm')) ∧
  remove_columns (DictReader.new sample) stdout remove_list startup =
  remove_columns (DictReader.new sample) stdout rm' startup.
Proof.
  intros h r rm'.
  assert (Reader_iternext (csv.reader sample) = inr (h, r)) as E
    by (by vm_compute).
  assert (∀ col, col ∈ h → (col ∈ remove_list ↔ col ∈ rm')) as Hiff.
  { intros col Hc. unfold h, rm', remove_list in *.
    repeat (apply elem_of_cons in Hc as [->|Hc]);
      [..|by apply elem_of_nil in Hc];
      split; intros Hx; solve
        [ apply (bool_decide_unpack _); vm_compute; exact I
        | exfalso; revert Hx; apply (bool_decide_unpack _); vm_compute;
          exact I ]. }
  split; [exact (conj E Hiff)|].
  exact (proj2 (removal_list_acts_through_header sample h r stdout
                  remove_list rm' startup E Hiff)).
Defined.

(** ** Repeated names and empty headers *)



(** X9.  When no name of the header survives, because the first line is
    blank or because every name is removed, the output holds no data at
    all: it is one bare line feed for the header and one for each non-blank
    data record, and the call ends normally. *)
Theorem no_surviving_column_gives_blank_lines lines h rows writer rm p :
  records (csv.reader lines) = (h :: rows, None) →
  kept rm h = [] →
  remove_columns (DictReader.new lines) writer rm p =
  (printed p (concat_lines (replicate (S (length (nonblank rows))) (chr LF))),
   inr tt).
Proof.
  intros Hrec Hk. rewrite remove_columns_spec, Hrec. simpl.
  unfold row_line. rewrite Hk. simpl.
  by rewrite (concat_lines_const (nonblank rows) (csv.writerow [])).
Qed.

Lemma no_surviving_column_witness :
  let lines := [line "E1,C1"; line "1,2"; line ""; line "3,4"] in
  let h := ["E1"; "C1"] in
  let rows := [["1"; "2"]; []; ["3"; "4"]] in
  (records (csv.reader lines) = (h :: rows, None) ∧ kept remove_list h = []) ∧
  remove_columns (DictReader.new lines) stdout remove_list startup =
  (printed startup (chr LF +:+ chr LF +:+ chr LF), inr tt).
Proof.
  intros lines h rows.
  assert (records (csv.reader lines) = (h :: rows, None)) as Hrec
    by (by vm_compute).
  assert (kept remove_list h = []) as Hk by (by vm_compute).
  split; [exact (conj Hrec Hk)|].
  etrans; [exact (no_surviving_column_gives_blank_lines lines h rows stdout
                    remove_list startup Hrec Hk)|].
  by vm_compute.
Defined.

(** ** The size of the fields and the round trip *)

(** X10.  No field the reader yields has more than 131072 characters, so
    that bound holds for every header name and every cell the script
    handles, whatever the input is. *)
Theorem fields_within_limit lines :
  Forall (Forall within_limit) (records (csv.reader lines)).1.
Proof. apply records_within_limit. Qed.

(** X11.  What the writer writes, the reader reads back: for records whose
    cells have no line break inside and fit the field limit, the lines
    written for them, one per record, are read as the same records, [None]
    read back as the empty string, and the reader raises nothing. *)
Theorem written_records_read_back (rows : list (list cell)) :
  Forall (Forall writable) rows →
  records (csv.reader (csv.writerow <$> rows)) =
  ((λ cs : list cell, default "" <$> cs) <$> rows, None).
Proof. apply records_of_written. Qed.

Lemma written_records_witness :
  let rows := [[Some "a,b"; None]; [Some ""]; []] in
  Forall (Forall writable) rows ∧
  records (csv.reader (csv.writerow <$> rows)) = ([["a,b"; ""]; [""]; []], None).
Proof.
  intros rows.
  assert (Forall (Forall writable) rows) as Hrows.
  { repeat constructor; by vm_compute. }
  split; [exact Hrows|]. exact (written_records_read_back rows Hrows).
Defined.

(** X16.  The round trip holds for records that span several lines.  For
    records whose cells fit the field limit and hold no carriage return
    that the writer leaves outside quotes, the text written for them, cut
    into lines at every line feed and carriage return as a text file cuts
    it, is read back as the same records, [None] as the empty string, and
    the reader raises nothing: a line break inside a cell comes back as it
    was. *)
Theorem written_text_reads_back (rows : list (list cell)) :
  Forall (Forall readable) rows →
  read_back (concat_lines (csv.writerow <$> rows)) =
  ((λ cs : list cell, default "" <$> cs) <$> rows, None).
Proof. apply (records_of_output rows 0). Qed.

Lemma written_text_witness :
  let rows := [[Some ("a" +:+ chr LF +:+ "b"); Some ("c" +:+ chr CR +:+ ",d")];
               [None; Some "e"]] in
  Forall (Forall readable) rows ∧
  concat_lines (csv.writerow <$> rows) =
    chr DQUOTE +:+ "a" +:+ chr LF +:+ "b" +:+ chr DQUOTE +:+ "," +:+
    chr DQUOTE +:+ "c" +:+ chr CR +:+ ",d" +:+ chr DQUOTE +:+ chr LF +:+
    line ",e" ∧
  length (readlines (concat_lines (csv.writerow <$> rows))) = 4 ∧
  read_back (concat_lines (csv.writerow <$> rows)) =
    ([["a" +:+ chr LF +:+ "b"; "c" +:+ chr CR +:+ ",d"]; [""; "e"]], None).
Proof.
  intros rows.
  assert (Forall (Forall readable) rows) as Hrows.
  { repeat constructor; by vm_compute. }
  split; [exact Hrows|]. split; [vm_compute; reflexivity|].
  split; [vm_compute; reflexivity|].
  exact (written_text_reads_back rows Hrows).
Defined.

(** ** Filtering the output again *)

(** The second pass: [remove_columns] on the lines of what a first pass
    wrote. *)
Lemma second_pass lines h rows rm1 rm2 writer p :
  records (csv.reader lines) = (h :: rows, None) →
  Forall (Forall (λ s, no_newline s = true)) (h :: rows) →
  kept rm1 h ≠ [] →
  remove_columns
    (DictReader.new (readlines (transcript rm1 (h :: rows, None)).1))
    writer rm2 p =
  (printed p (transcript (rm1 ++ rm2) (h :: rows, None)).1, inr tt).
Proof.
  intros Hrec Hnl Hk.
  pose proof (records_within_limit (csv.reader lines)) as Hlim.
  rewrite Hrec in Hlim. simpl in Hlim.
  pose proof (written_records_writable rm1 h rows Hnl Hlim) as Hw.
  rewrite transcript_written, (readlines_written _ Hw).
  rewrite remove_columns_spec. unfold csv.reader.
  rewrite (records_of_written _ 0 Hw).
  assert ((λ cs : list cell, default "" <$> cs) <$> written_records rm1 h rows =
          kept rm1 h ::
          ((λ r, default "" <$> cells (kept rm1 h) (DictReader.make_dict h r))
             <$> nonblank rows)) as ->.
  { unfold written_records. rewrite fmap_cons. f_equal.
    - apply fmap_default_Some.
    - by rewrite <- list_fmap_compose. }
  unfold transcript. cbn [fst snd].
  rewrite nonblank_nonempty_rows.
  2: { apply Forall_fmap, Forall_forall. intros r _. simpl.
       unfold cells. destruct (kept rm1 h); [done|]. by rewrite !fmap_cons. }
  rewrite kept_kept, <- list_fmap_compose. do 4 f_equal.
  apply list_fmap_ext. intros i r _. simpl. unfold row_line.
  rewrite kept_kept. apply row_line_second_pass.
  intros col Hc. rewrite <- kept_kept in Hc. by apply kept_in_header in Hc.
Qed.

(** X12.  Filtering composes.  When the input has a header and no field of
    it holds a line break, and the first removal list leaves at least one
    column, then filtering the output of a first pass with a second list is
    filtering the input once with both lists: [remove_columns] with [rm2] on
    the lines of what [remove_columns] with [rm1] wrote gives the run of
    [remove_columns] with [rm1 ++ rm2] on the input. *)
Theorem filtering_twice_composes lines h rows rm1 rm2 :
  records (csv.reader lines) = (h :: rows, None) →
  Forall (Forall (λ s, no_newline s = true)) (h :: rows) →
  kept rm1 h ≠ [] →
  let first :=
    sys_stdout (remove_columns (DictReader.new lines) stdout rm1 startup).1 in
  remove_columns (DictReader.new (readlines first)) stdout rm2 startup =
  remove_columns (DictReader.new lines) stdout (rm1 ++ rm2) startup.
Proof.
  intros Hrec Hnl Hk first. subst first.
  rewrite (remove_columns_spec lines), Hrec.
  cbn [fst sys_stdout printed startup]. rewrite append_empty_l.
  rewrite (second_pass lines h rows rm1 rm2 _ _ Hrec Hnl Hk).
  by rewrite (remove_columns_spec lines), Hrec.
Qed.

Lemma filtering_twice_witness :
  let h := ["A"; "B"; "E1"; "C"; "C2"] in
  let rows := [["1"; "2"; "3"; "4"; "5"]] in
  (records (csv.reader sample) = (h :: rows, None) ∧
   Forall (Forall (λ s, no_newline s = true)) (h :: rows) ∧
   kept remove_list h ≠ []) ∧
  remove_columns
    (DictReader.new
       (readlines
          (sys_stdout (remove_columns (DictReader.new sample) stdout
                         remove_list startup).1)))
    stdout ["B"] startup =
  remove_columns (DictReader.new sample) stdout (remove_list ++ ["B"]) startup.
Proof.
  intros h rows.
  assert (records (csv.reader sample) = (h :: rows, None)) as Hrec
    by (by vm_compute).
  assert (Forall (Forall (λ s, no_newline s = true)) (h :: rows)) as Hnl
    by (repeat constructor).
  assert (kept remove_list h ≠ []) as Hk by (by vm_compute).
  split; [exact (conj Hrec (conj Hnl Hk))|].
  exact (filtering_twice_composes sample h rows remove_list ["B"] Hrec Hnl Hk).
Defined.

(** X13.  Filtering is idempotent.  Under the same conditions, running
    [remove_columns] with the same list on the lines of its own output
    writes that output again, character for character, and ends
    normally. *)
Theorem filtering_is_idempotent lines h rows rm :
  records (csv.reader lines) = (h :: rows, None) →
  Forall (Forall (λ s, no_newline s = true)) (h :: rows) →
  kept rm h ≠ [] →
  let first :=
    sys_stdout (remove_columns (DictReader.new lines) stdout rm startup).1 in
  remove_columns (DictReader.new (readlines first)) stdout rm startup =
  (printed startup first, inr tt).
Proof.
  intros Hrec Hnl Hk first. subst first.
  rewrite (remove_columns_spec lines), Hrec.
  cbn [fst sys_stdout printed startup]. rewrite append_empty_l.
  rewrite (second_pass lines h rows rm rm _ _ Hrec Hnl Hk).
  do 2 f_equal. unfold transcript. cbn [fst].
  assert (kept (rm ++ rm) h = kept rm h) as Hkk.
  { apply kept_ext. intros col _. rewrite elem_of_app. tauto. }
  unfold row_line. by rewrite Hkk.
Qed.

Lemma filtering_idempotent_witness :
  let h := ["A"; "B"; "E1"; "C"; "C2"] in
  let rows := [["1"; "2"; "3"; "4"; "5"]] in
  (records (csv.reader sample) = (h :: rows, None) ∧
   Forall (Forall (λ s, no_newline s = true)) (h :: rows) ∧
   kept remove_list h ≠ []) ∧
  remove_columns
    (DictReader.new
       (readlines
          (sys_stdout (remove_columns (DictReader.new sample) stdout
                         remove_list startup).1)))
    stdout remove_list startup =
  (printed startup
     (sys_stdout (remove_columns (DictReader.new sample) stdout
                    remove_list startup).1), inr tt).
Proof.
  intros h rows.
  assert (records (csv.reader sample) = (h :: rows, None)) as Hrec
    by (by vm_compute).
  assert (Forall (Forall (λ s, no_newline s = true)) (h :: rows)) as Hnl
    by (repeat constructor).
  assert (kept remove_list h ≠ []) as Hk by (by vm_compute).
  split; [exact (conj Hrec (conj Hnl Hk))|].
  exact (filtering_is_idempotent sample h rows remove_list Hrec Hnl Hk).
Defined.

(** ** The shape of the output *)

(** X15.  The output is rectangular, whatever the shape of the input.  When
    the reader raises nothing and no field holds a line break, the lines of
    the output read back as the surviving names followed by one record for
    each non-blank data record, and every one of these records has exactly
    as many fields as there are surviving names: short records come out
    padded with empty fields, long ones cut. *)
Theorem output_is_rectangular lines h rows rm :
  records (csv.reader lines) = (h :: rows, None) →
  Forall (Forall (λ s, no_newline s = true)) (h :: rows) →
  let out :=
    sys_stdout (remove_columns (DictReader.new lines) stdout rm startup).1 in
  let data :=
    (λ r, default "" <$> cells (kept rm h) (DictReader.make_dict h r))
      <$> nonblank rows in
  records (csv.reader (readlines out)) = (kept rm h :: data, None) ∧
  length data = length (nonblank rows) ∧
  Forall (λ r : list string, length r = length (kept rm h)) data.
Proof.
  intros Hrec Hnl out data. subst out data.
  pose proof (records_within_limit (csv.reader lines)) as Hlim.
  rewrite Hrec in Hlim. simpl in Hlim.
  pose proof (written_records_writable rm h rows Hnl Hlim) as Hw.
  rewrite (remove_columns_spec lines), Hrec.
  cbn [fst sys_stdout printed startup]. rewrite append_empty_l.
  rewrite transcript_written, (readlines_written _ Hw).
  unfold csv.reader. rewrite (records_of_written _ 0 Hw).
  split; [|split].
  - unfold written_records. rewrite fmap_cons. do 2 f_equal.
    + apply fmap_default_Some.
    + by rewrite <- list_fmap_compose.
  - by rewrite length_fmap.
  - apply Forall_fmap, Forall_forall. intros r _. simpl.
    unfold cells. by rewrite !length_fmap.
Qed.

Lemma output_rectangular_witness :
  let h := ["A"; "B"] in
  let rows := [["1"]; []; ["2"; "3"; "4"]] in
  let lines := [line "A,B"; line "1"; line ""; line "2,3,4"] in
  (records (csv.reader lines) = (h :: rows, None) ∧
   Forall (Forall (λ s, no_newline s = true)) (h :: rows)) ∧
  records
    (csv.reader
       (readlines
          (sys_stdout
             (remove_columns (DictReader.new lines) stdout ["A"] startup).1))) =
  ([["B"]; [""]; ["3"]], None).
Proof.
  intros h rows lines.
  assert (records (csv.reader lines) = (h :: rows, None)) as Hrec
    by (by vm_compute).
  assert (Forall (Forall (λ s, no_newline s = true)) (h :: rows)) as Hnl
    by (repeat constructor).
  split; [exact (conj Hrec Hnl)|].
  etrans; [exact (proj1 (output_is_rectangular lines h rows ["A"] Hrec Hnl))|].
  vm_compute. reflexivity.
Defined.

(** ** How a run can end *)

(** X14.  When [open] raises nothing but [FileNotFoundError] and
    [OSError], the input reaches the reader as its lines, read and decoded
    without error, and the output takes every write, a run ends in one of
    five ways: normally, in the exit of the usage message, in the error of
    [open], in the type error of an empty input, or in a [csv.Error].  The
    guard on the number of arguments keeps [sys.argv[1]] from ever
    raising. *)
Theorem run_endings w :
  (∀ path e, open w path = inl e → e = FileNotFoundError ∨ e = OSError) →
  let r := (run w).2 in
  (r = inr tt ∨ r = inl (SystemExit 1) ∨ r = inl OSError ∨
   r = inl (TypeError "'NoneType' object is not iterable") ∨
   ∃ msg, r = inl (csv_Error msg)) ∧
  r ≠ inl IndexError.
Proof.
  intros Hopen r.
  assert (r = inr tt ∨ r = inl (SystemExit 1) ∨ r = inl OSError ∨
          r = inl (TypeError "'NoneType' object is not iterable") ∨
          ∃ msg, r = inl (csv_Error msg)) as Hr.
  { subst r. destruct (decide (length (sys_argv w) < 2)) as [Hlen|Hlen].
    { rewrite (run_usage w Hlen). auto. }
    destruct (sys_argv w !! 1) as [maybe_file|] eqn:Harg.
    2: { apply lookup_ge_None in Harg. lia. }
    destruct (open w maybe_file) as [e|infile] eqn:Ho.
    - destruct (Hopen _ _ Ho) as [->| ->].
      + rewrite (run_stdin _ _ Harg Ho).
        destruct (remove_columns_ends (sys_stdin w) stdout remove_list
                    {| sys_stdout := ""; sys_stderr := "";
                       columns := Some (drop 1 (sys_argv w)) |})
          as [->|[->|[msg ->]]]; eauto 10.
      + rewrite (run_open_error _ _ _ Harg Ho) by done. auto.
    - rewrite (run_file _ _ _ Harg Ho).
      destruct (remove_columns_ends infile stdout remove_list startup)
        as [->|[->|[msg ->]]]; eauto 10. }
  destruct Hr as [->|[->|[->|[->|[msg ->]]]]];
    (split; [eauto 10|done]).
Qed.

Lemma run_endings_witness :
  let w := on_stdin ["pycsv.py"; "missing.csv"] sample in
  (∀ path e, open w path = inl e → e = FileNotFoundError ∨ e = OSError) ∧
  (run w).2 ≠ inl IndexError.
Proof.
  intros w.
  assert (∀ path e, open w path = inl e →
                    e = FileNotFoundError ∨ e = OSError) as Hopen.
  { intros path e [= <-]. by left. }
  split; [exact Hopen|].
  exact (proj2 (run_endings w Hopen)).
Defined.
